(** * Dontpullup recovery utilities: a shallow embedding

    The development follows the Python scripts of the repository:
    - [merge_files.py]: the two-directory merge by modification time;
    - [compare_code_files.py]: inventory, duplicate and conflict groups, reports;
    - [extract_files.py], [extract_file.py]: recovery of text from editor
      snapshots. *)

From Stdlib Require Import ZArith QArith Lia Ascii.
From stdpp Require Import gmap strings list sorting.

Local Open Scope string_scope.
Local Open Scope Z_scope.
Local Open Scope list_scope.

(** ** Strings and paths *)

(** [str.endswith]: [ends_with suf s] holds when [suf] is a suffix of [s]. *)
Fixpoint ends_with (suf s : string) : bool :=
  if String.eqb suf s then true
  else match s with
       | EmptyString => false
       | String _ s' => ends_with suf s'
       end.

(** [str.startswith]. *)
Fixpoint starts_with (pre s : string) : bool :=
  match pre, s with
  | EmptyString, _ => true
  | String a pre', String b s' => Ascii.eqb a b && starts_with pre' s'
  | String _ _, EmptyString => false
  end.

(** The components of a relative POSIX path ([p.split("/")]). *)
Fixpoint path_components (p : string) : list string :=
  match p with
  | EmptyString => [EmptyString]
  | String c p' =>
      let r := path_components p' in
      if Ascii.eqb c ("/"%char) then EmptyString :: r
      else match r with
           | h :: t => String c h :: t
           | [] => [String c EmptyString]
           end
  end.

(** [glob._ishidden]: a name that starts with a dot. *)
Definition ishidden (name : string) : bool := starts_with "." name.

(** What [glob.glob(os.path.join(root, "**", "*.swift"), recursive=True)]
    yields, as a test on the path relative to [root]: [**] walks only through
    directories that are not hidden, and [*.swift] matches, in the directory
    reached, the names that end in [.swift] and are not hidden. *)
Definition swift_glob (rel : string) : bool :=
  let cs := path_components rel in
  forallb (fun c => negb (ishidden c)) cs
  && match last cs with
     | Some name => ends_with ".swift" name
     | None => false
     end.

(** A [for] loop whose body may raise: [None] is the exception. *)
Fixpoint for_each {S A} (body : S -> A -> option S) (st : S) (l : list A) : option S :=
  match l with
  | [] => Some st
  | x :: l' => st' ← body st x; for_each body st' l'
  end.

(** *** Paths the glob finds end in [.swift] *)

Lemma path_components_nonempty p : path_components p ≠ [].
Proof.
  destruct p as [ | c p ]; simpl; [ done | ].
  destruct (Ascii.eqb c "/"); [ done | ].
  by destruct (path_components p).
Qed.

Lemma path_components_single p h : path_components p = [h] → p = h.
Proof.
  revert h. induction p as [ | c p IH ]; intros h; simpl.
  - by intros [= <-].
  - destruct (Ascii.eqb c "/").
    + intros [= <- Hr]. by destruct (path_components_nonempty p).
    + destruct (path_components p) as [ | h' t ] eqn:E.
      * by destruct (path_components_nonempty p).
      * intros [= <- ->]. by rewrite (IH h').
Qed.

Lemma ends_with_tail suf c s : ends_with suf s = true → ends_with suf (String c s) = true.
Proof. intros H. simpl. rewrite H. by destruct (String.eqb suf (String c s)). Qed.

Lemma last_component_ends_with suf p name :
  last (path_components p) = Some name →
  ends_with suf name = true → ends_with suf p = true.
Proof.
  revert name. induction p as [ | c p IH ]; intros name.
  - simpl. by intros [= <-].
  - cbn [path_components].
    destruct (Ascii.eqb c "/").
    + destruct (path_components p) as [ | h t ] eqn:E.
      { by destruct (path_components_nonempty p). }
      intros Hl Hn. apply ends_with_tail, (IH name); done.
    + destruct (path_components p) as [ | h [ | h2 t ] ] eqn:E.
      * by destruct (path_components_nonempty p).
      * intros [= <-] Hn. by rewrite (path_components_single p h E).
      * intros Hl Hn. apply ends_with_tail, (IH name); done.
Qed.

Lemma swift_glob_ends_with p : swift_glob p = true → ends_with ".swift" p = true.
Proof.
  unfold swift_glob. intros [_ H]%andb_true_iff.
  destruct (last (path_components p)) as [name|] eqn:E; [ | done ].
  by apply (last_component_ends_with _ _ name).
Qed.


(** *** Components of a joined path *)

Lemma path_components_join a b :
  path_components (a +:+ String "/" b) = path_components a ++ path_components b.
Proof.
  induction a as [ | c a IH ].
  - reflexivity.
  - change (String c a +:+ String "/" b) with (String c (a +:+ String "/" b)).
    cbn [path_components]. rewrite IH.
    destruct (Ascii.eqb c "/"); [ done | ].
    destruct (path_components a) as [ | h t ] eqn:E; [ | done ].
    by destruct (path_components_nonempty a).
Qed.

Lemma path_components_component p :
  Forall (fun c => path_components c = [c]) (path_components p).
Proof.
  induction p as [ | c p IH ]; cbn [path_components].
  - by constructor.
  - destruct (Ascii.eqb c "/") eqn:Ec.
    + by constructor.
    + destruct (path_components p) as [ | h t ] eqn:E.
      { by destruct (path_components_nonempty p). }
      inversion IH as [ | ? ? Hh Ht ]; subst.
      constructor; [ | done ].
      cbn [path_components]. by rewrite Ec, Hh.
Qed.

(** ** The merge ([merge_files.py]) *)

Module Merge.

(** A regular file: its bytes and the modification time [os.path.getmtime]
    reads. [shutil.copy2] copies both. *)
Record file := File { content : string; mtime : Z }.

(** What a path of a tree holds: a regular file or a directory. *)
Inductive node :=
  | Reg (f : file)
  | Dir.

(** A directory tree, by the path relative to the root of everything under
    it. Links and access rights are left out: a regular file can be read, and
    a directory listed and written to. *)
Abbreviation tree := (gmap string node).

Definition is_reg (o : option node) : bool :=
  match o with Some (Reg _) => true | _ => false end.

Definition is_dir (o : option node) : bool :=
  match o with Some Dir => true | _ => false end.

(** The modification times [os.path.getmtime] reports for directories, by
    relative path: under the destination root and under the Recovery root.
    The file system sets them; the merge only reads them. *)
Record dir_times := DirTimes {
  merged_dir_mtime : string -> Z;
  recovery_dir_mtime : string -> Z
}.

(** One line of the audit trail the merge prints. *)
Inductive action :=
  | Copied (rel : string)     (* "Copied: rel (from Music)" *)
  | Updated (rel : string)    (* "Updated: rel (from Recovery - newer)" *)
  | Kept (rel : string)       (* "Kept: rel (from Music - newer)" *)
  | Added (rel : string).     (* "Added: rel (from Recovery)" *)

Definition action_path (a : action) : string :=
  match a with Copied r | Updated r | Kept r | Added r => r end.

(** The state the loops of [merge_files] thread: the destination tree, the
    set [processed_files] and the lines printed so far. *)
Record state := State {
  dst : tree;
  processed : gset string;
  report : list action
}.

(** How a piece of the script ends: it returns, or an exception leaves it.
    Either way the state reached so far stays behind. *)
Inductive outcome (S : Type) :=
  | Returned (st : S)
  | Raised (st : S).
Arguments Returned {S} st.
Arguments Raised {S} st.

Definition final {S} (o : outcome S) : S :=
  match o with Returned st | Raised st => st end.

(** A [for] loop whose body may raise; nothing in [merge_files] catches. *)
Fixpoint run_loop {S A} (body : S -> A -> outcome S) (st : S) (l : list A) : outcome S :=
  match l with
  | [] => Returned st
  | x :: l' =>
      match body st x with
      | Returned st' => run_loop body st' l'
      | Raised st' => Raised st'
      end
  end.

(** What the glob pattern finds under a root, in the order the directory walk
    lists it: [glob.glob] tests names only, so a directory whose name ends in
    [.swift] is found like a regular file. *)
Definition glob_swift (root : tree) : list (string * node) :=
  filter (fun e => Is_true (swift_glob e.1)) (map_to_list root).

(** [os.path.basename]. *)
Definition basename (rel : string) : string :=
  default EmptyString (last (path_components rel)).

(** The directories above a relative path, outermost first: for [a/b/c.swift]
    they are [a] and [a/b]. *)
Fixpoint parents_from (prefix : string) (cs : list string) : list string :=
  match cs with
  | c :: (_ :: _) as rest =>
      let d := if decide (prefix = EmptyString) then c else prefix +:+ String "/" c in
      d :: parents_from d rest
  | _ => []
  end.

Definition path_parents (rel : string) : list string :=
  parents_from EmptyString (path_components rel).

(** [os.makedirs(os.path.dirname(dst_path), exist_ok=True)], as the list of
    the directories to have: a directory that is missing is made, one that is
    there is left, and a regular file in the place of one raises
    ([FileExistsError] or [NotADirectoryError]) after the directories above it
    were made. The destination root itself exists: the module makes it before
    [merge_files] is called. *)
Fixpoint makedirs (d : tree) (dirs : list string) : outcome tree :=
  match dirs with
  | [] => Returned d
  | a :: rest =>
      match d !! a with
      | Some (Reg _) => Raised d
      | Some Dir => makedirs d rest
      | None => makedirs (<[a := Dir]> d) rest
      end
  end.

(** [shutil.copy2(src_path, dst_path)] where [src] is what the source path
    holds and [rel] the destination path. A destination that is a directory
    stands for the file of the source's name inside it. Opening a directory
    raises [IsADirectoryError], for the source before anything is written and
    for the destination; [None] is that exception. Otherwise the destination
    gets the bytes and the modification time of the source. *)
Definition copy2 (src : node) (d : tree) (rel : string) : option tree :=
  let target :=
    if is_dir (d !! rel) then rel +:+ String "/" (basename rel) else rel in
  match src with
  | Dir => None
  | Reg f =>
      if is_dir (d !! target) then None
      else Some (<[target := Reg f]> d)
  end.

(** [os.path.getmtime] of what a path holds; [None] is [FileNotFoundError]. *)
Definition getmtime (dir_mtime : string -> Z) (o : option node) (rel : string) : option Z :=
  match o with
  | Some (Reg f) => Some (mtime f)
  | Some Dir => Some (dir_mtime rel)
  | None => None
  end.

Definition set_dst (st : state) (d : tree) : state :=
  {| dst := d; processed := processed st; report := report st |}.

(** Body of the first loop: copy what the glob found under Music over the
    destination. *)
Definition copy_music (st : state) (e : string * node) : outcome state :=
  match makedirs (dst st) (path_parents e.1) with
  | Raised d => Raised (set_dst st d)
  | Returned d =>
      match copy2 e.2 d e.1 with
      | None => Raised (set_dst st d)
      | Some d' =>
          Returned {| dst := d';
                      processed := {[e.1]} ∪ processed st;
                      report := report st ++ [Copied e.1] |}
      end
  end.

(** Body of the second loop. *)
Definition merge_recovery (t : dir_times) (st : state) (e : string * node) : outcome state :=
  if decide (e.1 ∈ processed st) then
    match getmtime (merged_dir_mtime t) (dst st !! e.1) e.1 with
    | None => Raised st
    | Some music_mtime =>
        let recovery_mtime :=
          match e.2 with
          | Reg g => mtime g
          | Dir => recovery_dir_mtime t e.1
          end in
        if decide (music_mtime < recovery_mtime) then
          match copy2 e.2 (dst st) e.1 with
          | None => Raised st
          | Some d' =>
              Returned {| dst := d';
                          processed := processed st;
                          report := report st ++ [Updated e.1] |}
          end
        else
          Returned {| dst := dst st;
                      processed := processed st;
                      report := report st ++ [Kept e.1] |}
    end
  else
    match makedirs (dst st) (path_parents e.1) with
    | Raised d => Raised (set_dst st d)
    | Returned d =>
        match copy2 e.2 d e.1 with
        | None => Raised (set_dst st d)
        | Some d' =>
            Returned {| dst := d';
                        processed := {[e.1]} ∪ processed st;
                        report := report st ++ [Added e.1] |}
        end
    end.

(** The first loop. *)
Definition music_pass (music merged : tree) : outcome state :=
  run_loop copy_music {| dst := merged; processed := ∅; report := [] |} (glob_swift music).

(** [merge_files()], with the two source roots and the destination tree as
    arguments in place of the module's constants. *)
Definition merge_files (t : dir_times) (music recovery merged : tree) : outcome state :=
  match music_pass music merged with
  | Raised st => Raised st
  | Returned st => run_loop (merge_recovery t) st (glob_swift recovery)
  end.


(** The paths the glob finds in the two sources. *)
Definition sources (music recovery : tree) : list string :=
  (glob_swift music).*1 ++ (glob_swift recovery).*1.

(** The trees on which every copy of the merge goes to the path it names:
    what the glob finds in the sources are regular files, none of their paths
    is a directory in the destination, and no directory above one of them is
    itself the path of a file found or a regular file in the destination. *)
Definition mergeable (music recovery merged : tree) : Prop :=
  Forall (fun e => is_reg (Some e.2) = true) (glob_swift music ++ glob_swift recovery)
  ∧ Forall (fun p =>
       is_dir (merged !! p) = false
       ∧ Forall (fun a => (a ∉ sources music recovery) ∧ is_reg (merged !! a) = false)
                (path_parents p))
     (sources music recovery).

#[local] Instance mergeable_dec music recovery merged : Decision (mergeable music recovery merged).
Proof. unfold mergeable. apply _. Defined.

(** *** What the glob finds *)

Lemma glob_swift_elem (root : tree) p n :
  (p, n) ∈ glob_swift root ↔ root !! p = Some n ∧ swift_glob p = true.
Proof.
  unfold glob_swift. rewrite list_elem_of_filter, elem_of_map_to_list. simpl.
  rewrite Is_true_true. tauto.
Qed.





(** The file inside a directory that [copy2] writes when the destination path
    is a directory is a path the glob pattern matches too. *)
Lemma basename_target rel :
  swift_glob rel = true → swift_glob (rel +:+ String "/" (basename rel)) = true.
Proof.
  unfold swift_glob, basename. rewrite path_components_join.
  intros [Hh Hl]%andb_true_iff.
  destruct (last (path_components rel)) as [name|] eqn:E; [ | done ]. simpl.
  apply last_Some in E as [l' E].
  pose proof (path_components_component rel) as Hc. rewrite E in Hc, Hh.
  apply Forall_app in Hc as [_ Hc]. inversion Hc as [ | ? ? Hn _ ]; subst.
  rewrite Hn, E, forallb_app, Hh. simpl.
  rewrite forallb_app in Hh. apply andb_true_iff in Hh as [_ Hh2].
  simpl in Hh2. rewrite andb_true_r in Hh2. rewrite Hh2. simpl.
  by rewrite last_snoc.
Qed.

(** *** What any run changes *)

(** From one destination tree to a later one: a path keeps what it had, or
    was absent and is now a directory, or is a path the glob pattern matches
    that was not a directory and now holds a regular file. *)
Definition grows (d d' : tree) : Prop :=
  ∀ q, d' !! q = d !! q
       ∨ (d !! q = None ∧ d' !! q = Some Dir)
       ∨ (swift_glob q = true ∧ is_dir (d !! q) = false ∧ is_reg (d' !! q) = true).

Lemma grows_refl d : grows d d.
Proof. intros q. by left. Qed.

Lemma grows_trans d1 d2 d3 : grows d1 d2 → grows d2 d3 → grows d1 d3.
Proof.
  intros H12 H23 q. specialize (H12 q). specialize (H23 q).
  destruct H23 as [ E | [ [E1 E2] | (Hs & Hd & Hr) ] ].
  - rewrite E. exact H12.
  - destruct H12 as [ E | [ [E3 E4] | (Hs & Hd & Hr) ] ].
    + right. left. split; congruence.
    + congruence.
    + rewrite E1 in Hr. discriminate.
  - destruct H12 as [ E | [ [E3 E4] | (Hs' & Hd' & Hr') ] ].
    + right. right. rewrite <- E. done.
    + rewrite E4 in Hd. discriminate.
    + right. right. done.
Qed.

Lemma makedirs_grows dirs : ∀ d, grows d (final (makedirs d dirs)).
Proof.
  induction dirs as [ | a dirs IH ]; intros d; simpl.
  - apply grows_refl.
  - destruct (d !! a) as [ [f|] | ] eqn:E.
    + apply grows_refl.
    + apply IH.
    + eapply grows_trans; [ | apply IH ].
      intros q. destruct (decide (q = a)) as [ -> | Hne ].
      * right. left. by rewrite lookup_insert_eq.
      * left. by rewrite lookup_insert_ne.
Qed.

Lemma copy2_grows src d rel d' :
  swift_glob rel = true → copy2 src d rel = Some d' → grows d d'.
Proof.
  intros Hs. unfold copy2. destruct src as [f|]; [ | done ].
  set (target := if is_dir (d !! rel) then rel +:+ String "/" (basename rel) else rel).
  assert (Ht : swift_glob target = true).
  { unfold target. destruct (is_dir (d !! rel)); [ by apply basename_target | done ]. }
  destruct (is_dir (d !! target)) eqn:Hd; [ done | ].
  intros [= <-] q. destruct (decide (q = target)) as [ -> | Hne ].
  - right. right. by rewrite lookup_insert_eq.
  - left. by rewrite lookup_insert_ne.
Qed.

(** What holds of the state at every point of a run, on any trees. *)
Definition run_inv (merged : tree) (st : state) : Prop :=
  grows merged (dst st)
  ∧ (∀ p, p ∈ processed st → swift_glob p = true)
  ∧ Forall (fun a => swift_glob (action_path a) = true) (report st).

Lemma copy_step_inv merged st e line :
  swift_glob e.1 = true → action_path line = e.1 →
  run_inv merged st →
  run_inv merged
    (final match makedirs (dst st) (path_parents e.1) with
           | Raised d => Raised (set_dst st d)
           | Returned d =>
               match copy2 e.2 d e.1 with
               | None => Raised (set_dst st d)
               | Some d' =>
                   Returned {| dst := d';
                               processed := {[e.1]} ∪ processed st;
                               report := report st ++ [line] |}
               end
           end).
Proof.
  intros Hs Hline (Hg & Hp & Hr).
  pose proof (makedirs_grows (path_parents e.1) (dst st)) as Hmk.
  destruct (makedirs (dst st) (path_parents e.1)) as [d|d]; simpl in *.
  - destruct (copy2 e.2 d e.1) as [d'|] eqn:Ec; simpl.
    + split; [ | split ].
      * eapply grows_trans; [ exact Hg | ].
        eapply grows_trans; [ exact Hmk | ]. by eapply copy2_grows.
      * intros p [ ->%elem_of_singleton | ? ]%elem_of_union; auto.
      * apply Forall_app. split; [ done | ]. constructor; [ | done ]. by rewrite Hline.
    + split; [ | done ]. by eapply grows_trans.
  - split; [ | done ]. by eapply grows_trans.
Qed.

Lemma copy_music_inv merged st e :
  swift_glob e.1 = true → run_inv merged st → run_inv merged (final (copy_music st e)).
Proof. intros Hs Hi. by apply (copy_step_inv merged st e (Copied e.1)). Qed.

Lemma merge_recovery_inv t merged st e :
  swift_glob e.1 = true → run_inv merged st → run_inv merged (final (merge_recovery t st e)).
Proof.
  intros Hs Hi. unfold merge_recovery.
  destruct (decide (e.1 ∈ processed st)); [ | by apply (copy_step_inv merged st e (Added e.1)) ].
  destruct (getmtime (merged_dir_mtime t) (dst st !! e.1) e.1) as [m|]; [ | done ].
  destruct Hi as (Hg & Hp & Hr).
  cbv zeta. case_decide.
  - destruct (copy2 e.2 (dst st) e.1) as [d'|] eqn:Ec; simpl; [ | done ].
    split; [ | split ]; [ | done | ].
    + eapply grows_trans; [ exact Hg | ]. by eapply copy2_grows.
    + apply Forall_app. split; [ done | ]. by constructor.
  - simpl. split; [ done | ]. split; [ done | ].
    apply Forall_app. split; [ done | ]. by constructor.
Qed.

Lemma run_loop_inv {S A} (I : S → Prop) (body : S → A → outcome S) l :
  (∀ st x, x ∈ l → I st → I (final (body st x))) →
  ∀ st, I st → I (final (run_loop body st l)).
Proof.
  induction l as [ | x l IH ]; intros Hbody st Hst; simpl; [ done | ].
  pose proof (Hbody st x ltac:(left) Hst) as Hx.
  destruct (body st x) as [st'|st']; simpl in *; [ | done ].
  apply IH; [ | done ]. intros st0 y Hy. apply Hbody. by right.
Qed.

Lemma merge_files_inv t music recovery merged :
  run_inv merged (final (merge_files t music recovery merged)).
Proof.
  unfold merge_files, music_pass.
  assert (H1 : run_inv merged
            (final (run_loop copy_music {| dst := merged; processed := ∅; report := [] |}
                      (glob_swift music)))).
  { apply (run_loop_inv (run_inv merged)).
    - intros st [p n] [_ Hs]%glob_swift_elem. by apply copy_music_inv.
    - split; [ apply grows_refl | ]. split; [ set_solver | constructor ]. }
  destruct (run_loop copy_music _ (glob_swift music)) as [st1|st1]; simpl in *; [ | done ].
  apply (run_loop_inv (run_inv merged)); [ | done ].
  intros st [p n] [_ Hs]%glob_swift_elem. by apply merge_recovery_inv.
Qed.

(** *** Runs on mergeable trees *)








(** *** The first loop *)


(** *** The second loop *)





(** *** The whole merge on mergeable trees *)













(** *** Example trees *)

Definition example_times : dir_times := DirTimes (fun _ => 0) (fun _ => 0).

Definition example_music : tree :=
  {[ "App" := Dir; "App/Main.swift" := Reg (File "m1" 10);
     "Views" := Dir; "Views/Home.swift" := Reg (File "h1" 20);
     "notes.txt" := Reg (File "n" 7) ]}.

Definition example_recovery : tree :=
  {[ "App" := Dir; "App/Main.swift" := Reg (File "m2" 10);
     "Views" := Dir; "Views/Home.swift" := Reg (File "h2" 30);
     "Models" := Dir; "Models/User.swift" := Reg (File "u2" 5) ]}.

Definition example_merged : tree :=
  {[ "App" := Dir; "notes.txt" := Reg (File "old" 3) ]}.

(** *** Claims about the merge *)







(** C9 (as amended): a path that does not end in [.swift] is never copied to,
    never counted and never reported, whether the merge returns or an
    exception stops it; the destination keeps what it had at the path, except
    that a path absent from the destination can be made as a directory, when
    it is a directory above a merged file. *)
Theorem merge_files_only_swift (t : dir_times) (music recovery merged : tree) (p : string) :
  ends_with ".swift" p = false →
  (dst (final (merge_files t music recovery merged)) !! p = merged !! p
   ∨ (merged !! p = None
      ∧ dst (final (merge_files t music recovery merged)) !! p = Some Dir))
  ∧ (p ∉ processed (final (merge_files t music recovery merged)))
  ∧ Forall (fun a => action_path a ≠ p) (report (final (merge_files t music recovery merged))).
Proof.
  intros Hend.
  assert (Hs : swift_glob p = false).
  { destruct (swift_glob p) eqn:Hs; [ | done ].
    apply swift_glob_ends_with in Hs. congruence. }
  pose proof (merge_files_inv t music recovery merged) as (Hg & Hp & Hr).
  split; [ | split ].
  - destruct (Hg p) as [ ? | [ ? | (Hs' & _) ] ]; [ by left | by right | congruence ].
  - intros Hin. apply Hp in Hin. congruence.
  - eapply Forall_impl; [ exact Hr | ]. intros a Ha <-. simpl in Ha. congruence.
Qed.

Lemma merge_files_only_swift_witness :
  (dst (final (merge_files example_times example_music example_recovery example_merged))
     !! "notes.txt" = example_merged !! "notes.txt"
   ∨ (example_merged !! "notes.txt" = None
      ∧ dst (final (merge_files example_times example_music example_recovery example_merged))
          !! "notes.txt" = Some Dir))
  ∧ ("notes.txt" ∉ processed (final (merge_files example_times example_music example_recovery
                                       example_merged)))
  ∧ Forall (fun a => action_path a ≠ "notes.txt")
      (report (final (merge_files example_times example_music example_recovery example_merged))).
Proof. apply (merge_files_only_swift _ _ _ _ "notes.txt"). reflexivity. Defined.

(** C9 as stated fails where it says the destination entry is unchanged: Music
    has a regular file [notes], Recovery a directory [notes] with a Swift file
    in it, and the destination nothing at [notes]. The merge returns and has
    made the directory [notes] in the destination. *)
Example merge_files_makes_directory :
  merge_files example_times
    {[ "notes" := Reg (File "n" 1) ]}
    {[ "notes" := Dir; "notes/a.swift" := Reg (File "2" 2) ]} ∅
  = Returned {| dst := {[ "notes" := Dir; "notes/a.swift" := Reg (File "2" 2) ]};
                processed := {[ "notes/a.swift" ]};
                report := [Added "notes/a.swift"] |}.
Proof. vm_compute. reflexivity. Qed.

(** *** Further properties of the merge *)

(** X1: The merge deletes nothing, whether it returns or an exception stops it:
    every path of the destination is still there afterwards, a directory is
    still a directory and a regular file still a regular file, and a regular
    file at a path the glob pattern does not match is the file it was. *)
Theorem merge_files_keeps_other_files (t : dir_times) (music recovery merged : tree) :
  dom merged ⊆ dom (dst (final (merge_files t music recovery merged)))
  ∧ ∀ p,
      (is_dir (merged !! p) = true →
       dst (final (merge_files t music recovery merged)) !! p = Some Dir)
    ∧ (is_reg (merged !! p) = true →
       is_reg (dst (final (merge_files t music recovery merged)) !! p) = true)
    ∧ (swift_glob p = false → ∀ f, merged !! p = Some (Reg f) →
       dst (final (merge_files t music recovery merged)) !! p = Some (Reg f)).
Proof.
  pose proof (merge_files_inv t music recovery merged) as (Hg & _ & _).
  split.
  - intros p [n Hn]%elem_of_dom. apply elem_of_dom.
    destruct (Hg p) as [ E | [ [E _] | (_ & _ & Hr) ] ].
    + rewrite E. eauto.
    + congruence.
    + by destruct (dst (final (merge_files t music recovery merged)) !! p).
  - intros p. split; [ | split ].
    + intros Hd. destruct (Hg p) as [ E | [ [E _] | (_ & Hd' & _) ] ].
      * rewrite E. by destruct (merged !! p) as [ [f|] | ].
      * by rewrite E in Hd.
      * congruence.
    + intros Hr. destruct (Hg p) as [ E | [ [E _] | (_ & _ & Hr') ] ].
      * by rewrite E.
      * by rewrite E in Hr.
      * done.
    + intros Hs f Hf. destruct (Hg p) as [ E | [ [E _] | (Hs' & _) ] ]; congruence.
Qed.









End Merge.

(** ** Python containers and [sorted] *)

(** A [dict] with string keys, in insertion order. *)
Abbreviation dict V := (list (string * V)).

(** [d.get(k)], [None] when the key is absent. *)
Fixpoint dict_get {V} (k : string) (d : dict V) : option V :=
  match d with
  | [] => None
  | (k', v) :: d' => if decide (k = k') then Some v else dict_get k d'
  end.

(** [d[k] = v]: the value is replaced in place, a new key goes last. *)
Fixpoint dict_set {V} (k : string) (v : V) (d : dict V) : dict V :=
  match d with
  | [] => [(k, v)]
  | (k', v') :: d' =>
      if decide (k = k') then (k', v) :: d' else (k', v') :: dict_set k v d'
  end.

(** [d[k].append(v)] on a [defaultdict(list)]. *)
Fixpoint dict_append {V} (k : string) (v : V) (d : dict (list V)) : dict (list V) :=
  match d with
  | [] => [(k, [v])]
  | (k', vs) :: d' =>
      if decide (k = k') then (k', vs ++ [v]) :: d' else (k', vs) :: dict_append k v d'
  end.

(** One step of a stable insertion: [x], which came later in the input, goes
    before the first element it is strictly less than. *)
Fixpoint insort {A} (ltb : A -> A -> bool) (x : A) (l : list A) : list A :=
  match l with
  | [] => [x]
  | y :: l' => if ltb x y then x :: l else y :: insort ltb x l'
  end.

Definition stable_sort {A} (ltb : A -> A -> bool) (l : list A) : list A :=
  foldl (fun acc x => insort ltb x acc) [] l.

(** [sorted(l, reverse=...)] under the comparison [ltb] (Python's [<] on the
    elements or on their keys). The sort is stable; with [reverse=True]
    CPython reverses the list, sorts it and reverses the result, which keeps
    equal elements in their original order. *)
Definition sorted {A} (ltb : A -> A -> bool) (reversed : bool) (l : list A) : list A :=
  if reversed then reverse (stable_sort ltb (reverse l)) else stable_sort ltb l.

(** [sep.join(ss)]. *)
Fixpoint join (sep : string) (ss : list string) : string :=
  match ss with
  | [] => EmptyString
  | [s] => s
  | s :: ss' => s +:+ sep +:+ join sep ss'
  end.

(** Python's [<] on lists, from [==] and [<] on the elements. *)
Fixpoint list_ltb {A} (eqb ltb : A -> A -> bool) (xs ys : list A) : bool :=
  match xs, ys with
  | [], [] => false
  | [], _ :: _ => true
  | _ :: _, [] => false
  | x :: xs', y :: ys' => if eqb x y then list_ltb eqb ltb xs' ys' else ltb x y
  end.

(** *** Lemmas on dicts *)

Section dict_lemmas.
Context {V : Type}.
Implicit Types d : dict V.

Lemma dict_get_elem d k v : NoDup d.*1 → (k, v) ∈ d ↔ dict_get k d = Some v.
Proof.
  induction d as [ | [k' v'] d IH ]; simpl.
  - intros _. split; [ by intros ?%elem_of_nil | done ].
  - intros [Hk ND]%NoDup_cons. rewrite elem_of_cons.
    destruct (decide (k = k')) as [ -> | Hne ].
    + split.
      * intros [ [= ->] | Hin ]; [ done | ].
        destruct Hk. apply list_elem_of_fmap. by exists (k', v).
      * intros [= ->]. by left.
    + rewrite <- (IH ND). split; [ | by right ].
      intros [ [= -> ->] | ? ]; done.
Qed.

Lemma dict_get_None d k : dict_get k d = None ↔ k ∉ d.*1.
Proof.
  induction d as [ | [k' v'] d IH ]; simpl.
  - split; [ by intros _ ?%elem_of_nil | done ].
  - rewrite not_elem_of_cons. destruct (decide (k = k')); [ | rewrite IH ]; naive_solver.
Qed.

Lemma dict_set_fresh d k v : k ∉ d.*1 → dict_set k v d = d ++ [(k, v)].
Proof.
  induction d as [ | [k' v'] d IH ]; simpl; [ done | ].
  intros [Hne Hk]%not_elem_of_cons. rewrite decide_False by done. by rewrite IH.
Qed.

(** Copying the entries that pass a test into a fresh dict keeps them, in
    order. *)
Lemma dict_set_loop (P : string * V → Prop) `{∀ e, Decision (P e)} l : ∀ acc,
  NoDup (acc.*1 ++ l.*1) →
  foldl (fun c e => if decide (P e) then dict_set e.1 e.2 c else c) acc l
  = acc ++ filter P l.
Proof.
  induction l as [ | [k v] l IH ]; intros acc ND; simpl.
  - by rewrite app_nil_r.
  - rewrite filter_cons. simpl in ND.
    apply NoDup_app in ND as (NDa & Hdisj & NDl).
    apply NoDup_cons in NDl as [Hk NDl].
    destruct (decide (P (k, v))) as [HP | HP]; simpl.
    + rewrite dict_set_fresh by (intros Hin; apply (Hdisj _ Hin); by left).
      rewrite IH; [ by rewrite <- app_assoc | ].
      rewrite fmap_app. simpl. rewrite <- app_assoc. simpl.
      apply NoDup_app. split; [ done | ]. split; [ | by apply NoDup_cons ].
      intros x Hx. by apply Hdisj.
    + apply IH. apply NoDup_app. split; [ done | ]. split; [ | done ].
      intros x Hx Hin. apply (Hdisj _ Hx). by right.
Qed.

Lemma dict_filter_NoDup (P : string * V → Prop) `{∀ e, Decision (P e)} d :
  NoDup d.*1 → NoDup (filter P d).*1.
Proof.
  intros ND. eapply sublist_NoDup; [ exact ND | ].
  apply fmap_sublist, sublist_filter.
Qed.
End dict_lemmas.

(** *** Grouping with [defaultdict(list)] *)

Section grouping.
Context {R V : Type} (key : R → string) (val : R → V).

Definition group_step (d : dict (list V)) (r : R) : dict (list V) :=
  dict_append (key r) (val r) d.

(** The values of the records under key [k], in the order of the records. *)
Definition members (k : string) (rs : list R) : list V :=
  val <$> filter (fun r => key r = k) rs.

Lemma dict_append_get k v (d : dict (list V)) k' :
  dict_get k' (dict_append k v d) =
  if decide (k' = k) then Some (default [] (dict_get k d) ++ [v]) else dict_get k' d.
Proof.
  induction d as [ | [k0 vs] d IH ]; simpl.
  - by destruct (decide (k' = k)).
  - destruct (decide (k = k0)) as [ -> | Hne ]; simpl.
    + destruct (decide (k' = k0)); done.
    + destruct (decide (k' = k0)) as [ -> | Hne' ].
      * by rewrite decide_False.
      * apply IH.
Qed.

Lemma dict_append_keys k v (d : dict (list V)) :
  (dict_append k v d).*1 = d.*1 ++ (if decide (k ∈ d.*1) then [] else [k]).
Proof.
  induction d as [ | [k0 vs] d IH ].
  - cbn [dict_append fmap list_fmap fst app].
    destruct (decide (k ∈ [])) as [ Hin | _ ]; [ | done ].
    by apply elem_of_nil in Hin.
  - cbn [dict_append fmap list_fmap fst].
    destruct (decide (k = k0)) as [ -> | Hne ]; cbn [fmap list_fmap fst].
    + destruct (decide (k0 ∈ k0 :: d.*1)) as [ _ | Hnin ].
      * by rewrite app_nil_r.
      * destruct Hnin. by left.
    + fold (@fmap list _ _ _ (@fst string (list V)) (dict_append k v d)).
      rewrite IH. cbn [app]. f_equal. f_equal.
      destruct (decide (k ∈ d.*1)) as [ Hin | Hnin ],
               (decide (k ∈ k0 :: d.*1)) as [ Hin' | Hnin' ]; try done.
      * destruct Hnin'. by right.
      * apply elem_of_cons in Hin' as [ ? | ? ]; done.
Qed.

Lemma dict_append_NoDup k v (d : dict (list V)) :
  NoDup d.*1 → NoDup (dict_append k v d).*1.
Proof.
  intros ND. rewrite dict_append_keys.
  destruct (decide (k ∈ d.*1)); [ by rewrite app_nil_r | ].
  apply NoDup_app. split; [ done | ]. split; [ | apply NoDup_singleton ].
  intros x Hx ->%list_elem_of_singleton. done.
Qed.

Lemma group_NoDup rs : ∀ d, NoDup d.*1 → NoDup (foldl group_step d rs).*1.
Proof.
  induction rs as [ | r rs IH ]; intros d ND; simpl; [ done | ].
  apply IH, dict_append_NoDup, ND.
Qed.

Lemma group_get rs k : ∀ d,
  dict_get k (foldl group_step d rs) =
  match dict_get k d, members k rs with
  | Some vs, g => Some (vs ++ g)
  | None, [] => None
  | None, g => Some g
  end.
Proof.
  unfold members.
  induction rs as [ | r rs IH ]; intros d; simpl.
  - destruct (dict_get k d); [ by rewrite app_nil_r | done ].
  - rewrite IH. unfold group_step. rewrite dict_append_get, filter_cons.
    destruct (decide (k = key r)) as [ -> | Hne ].
    + rewrite decide_True by done. simpl.
      destruct (dict_get (key r) d); simpl; [ by rewrite <- app_assoc | done ].
    + rewrite decide_False by done. done.
Qed.

(** The dict the grouping loop builds: one key per key of the records, with
    the members in the order of the records. *)
Lemma group_elem rs k g :
  (k, g) ∈ foldl group_step [] rs ↔ g = members k rs ∧ g ≠ [].
Proof.
  rewrite dict_get_elem by (apply group_NoDup; constructor).
  rewrite group_get. simpl.
  destruct (members k rs) as [ | v vs ]; naive_solver.
Qed.
End grouping.

(** *** Lemmas on [sorted] *)

Section sorted_lemmas.
Context {A : Type} (ltb : A → A → bool).

Lemma insort_Permutation x l : insort ltb x l ≡ₚ x :: l.
Proof.
  induction l as [ | y l IH ]; simpl; [ done | ].
  destruct (ltb x y); [ done | ]. rewrite IH. apply Permutation_swap.
Qed.

Lemma stable_sort_acc_Permutation l : ∀ acc,
  foldl (fun acc x => insort ltb x acc) acc l ≡ₚ acc ++ l.
Proof.
  induction l as [ | x l IH ]; intros acc; simpl.
  - by rewrite app_nil_r.
  - rewrite IH, insort_Permutation. simpl. apply Permutation_middle.
Qed.

Lemma stable_sort_Permutation l : stable_sort ltb l ≡ₚ l.
Proof. apply (stable_sort_acc_Permutation l []). Qed.

Lemma sorted_Permutation reversed l : sorted ltb reversed l ≡ₚ l.
Proof.
  unfold sorted. destruct reversed; [ | apply stable_sort_Permutation ].
  by rewrite reverse_Permutation, stable_sort_Permutation, reverse_Permutation.
Qed.

(** Any relation that [ltb] decides one way or the other orders the result. *)
Context (le : relation A).
Hypothesis ltb_true : ∀ x y, ltb x y = true → le x y.
Hypothesis ltb_false : ∀ x y, ltb x y = false → le y x.

Lemma insort_Sorted x l : Sorted le l → Sorted le (insort ltb x l).
Proof.
  induction l as [ | y l IH ]; simpl; intros Hs.
  - repeat constructor.
  - destruct (ltb x y) eqn:E.
    + constructor; [ done | ]. constructor. by apply ltb_true.
    + apply Sorted_inv in Hs as [Hs Hhd]. constructor; [ by apply IH | ].
      destruct l as [ | z l ]; simpl.
      * constructor. by apply ltb_false.
      * destruct (ltb x z); constructor.
        -- by apply ltb_false.
        -- by apply HdRel_inv in Hhd.
Qed.

Lemma stable_sort_Sorted l : Sorted le (stable_sort ltb l).
Proof.
  unfold stable_sort.
  assert (H : ∀ acc, Sorted le acc →
            Sorted le (foldl (fun acc x => insort ltb x acc) acc l)).
  { induction l as [ | x l IH ]; intros acc Hacc; simpl; [ done | ].
    apply IH, insort_Sorted, Hacc. }
  apply H. constructor.
Qed.

Lemma sorted_ascending l : Sorted le (sorted ltb false l).
Proof. apply stable_sort_Sorted. Qed.

Lemma sorted_descending l : Sorted (flip le) (sorted ltb true l).
Proof. apply Sorted_reverse, stable_sort_Sorted. Qed.
End sorted_lemmas.

(** ** The inventory ([compare_code_files.py]) *)

Module Inventory.

(** A tuple [(rel_path, loc_key, abs_path, sha)] of [collect_swift_files]. *)
Record record := Rec {
  rel_path : string;
  location : string;
  abs_path : string;
  sha : string
}.

(** What the scan reads of the machine: the working directory, which paths
    are directories, the paths [glob.iglob] yields under a root for
    [**/*.swift] (relative to the root, in the order of the walk), and the
    bytes of a file, [None] when opening or reading it raises. *)
Record world := World {
  cwd : string;
  isdir : string -> bool;
  iglob_swift : string -> list string;
  read_bytes : string -> option string
}.

(** [os.path.join] on two POSIX paths. *)
Definition path_join (a b : string) : string :=
  if starts_with "/" b then b
  else if decide (a = EmptyString) then b
  else if ends_with "/" a then a +:+ b
  else a +:+ "/" +:+ b.

(** A line the scan prints: "[WARN] Could not hash abs_path: exc". *)
Inductive log_line := Warn (path : string).

Section Scan.
(** [hashlib.sha256(...).hexdigest()] of a byte string. Feeding the file in
    chunks of 8192 bytes digests the same bytes. *)
Variable sha256 : string -> string.
Variable w : world.

(** [compute_sha256]: [None] when the file cannot be opened or read. *)
Definition compute_sha256 (file_path : string) : option string :=
  sha256 <$> read_bytes w file_path.

(** Body of the inner loop of [collect_swift_files]. *)
Definition scan_file (loc_key abs_root : string)
    (st : list record * list log_line) (rel : string) : list record * list log_line :=
  let abs := path_join abs_root rel in
  match compute_sha256 abs with
  | None => (st.1, st.2 ++ [Warn abs])                                (* continue *)
  | Some h => (st.1 ++ [Rec rel loc_key abs h], st.2)
  end.

(** [abs_root] of a location. *)
Definition abs_root_of (loc_root : string) : string :=
  if starts_with "/" loc_root then loc_root else path_join (cwd w) loc_root.

(** Body of the outer loop. *)
Definition scan_location (st : list record * list log_line)
    (loc : string * string) : list record * list log_line :=
  let abs_root := abs_root_of loc.2 in
  if negb (isdir w abs_root) then st                                    (* continue *)
  else foldl (scan_file loc.1 abs_root) st (iglob_swift w abs_root).

(** [collect_swift_files()], with the [LOCATIONS] table as argument; the
    second component is what was printed. *)
Definition collect_swift_files (locations : dict string) : list record * list log_line :=
  foldl scan_location ([], []) locations.
End Scan.

(** An entry of a duplicate group: [(rel_path, loc, abs_path)]. *)
Definition content_entry (r : record) : string * string * string :=
  (rel_path r, location r, abs_path r).

(** An entry of a conflict group: [(loc, abs_path, sha)]. *)
Definition path_entry (r : record) : string * string * string :=
  (location r, abs_path r, sha r).

Definition build_content_groups (records : list record) : dict (list (string * string * string)) :=
  let by_hash := foldl (fun d r => dict_append (sha r) (content_entry r) d) [] records in
  filter (fun e => 1 < length e.2)%nat by_hash.

Definition build_conflict_groups (records : list record) : dict (list (string * string * string)) :=
  let by_path := foldl (fun d r => dict_append (rel_path r) (path_entry r) d) [] records in
  foldl (fun conflicts e =>
           let unique_hashes : gset string := list_to_set (e.2.*2) in
           if decide (1 < size unique_hashes)%nat then dict_set e.1 e.2 conflicts
           else conflicts)
        [] by_path.

(** The rows [csv.writer] receives, after the header row. *)
Definition duplicates_header : list string :=
  ["sha256"; "count"; "details (rel_path | location)"].
Definition conflicts_header : list string := ["rel_path"; "location"; "sha256"].

Definition write_duplicates_csv (groups : dict (list (string * string * string)))
    : list (string * nat * string) :=
  (fun e => let detail := join "; " ((fun x => x.1.1 +:+ " | " +:+ x.1.2) <$> e.2) in
            (e.1, length e.2, detail))
  <$> sorted (fun x y => length x.2 <? length y.2)%nat true groups.

(** [<] on the tuples [(loc, abs_path, sha)] and on the items of the dict. *)
Definition triple_eqb (a b : string * string * string) : bool := bool_decide (a = b).
Definition triple_ltb (a b : string * string * string) : bool :=
  if decide (a.1.1 = b.1.1) then
    if decide (a.1.2 = b.1.2) then String.ltb a.2 b.2 else String.ltb a.1.2 b.1.2
  else String.ltb a.1.1 b.1.1.
Definition item_ltb (a b : string * list (string * string * string)) : bool :=
  if decide (a.1 = b.1) then list_ltb triple_eqb triple_ltb a.2 b.2
  else String.ltb a.1 b.1.

Definition write_conflicts_csv (conflicts : dict (list (string * string * string)))
    : list (string * string * string) :=
  e ← sorted item_ltb false conflicts;
  (fun x => (e.1, x.1.1, x.2)) <$> e.2.

(** *** Helper lemmas *)

Lemma size_gt_1 (X : gset string) :
  (1 < size X)%nat ↔ ∃ x y, x ∈ X ∧ y ∈ X ∧ x ≠ y.
Proof.
  split.
  - intros Hsz.
    destruct (size_pos_elem_of X) as [x Hx]; [ lia | ].
    assert (Hd : size (X ∖ {[x]}) = (size X - 1)%nat).
    { rewrite size_difference by set_solver. by rewrite size_singleton. }
    destruct (size_pos_elem_of (X ∖ {[x]})) as [y Hy]; [ lia | ].
    exists x, y. set_solver.
  - intros (x & y & Hx & Hy & Hne).
    assert (Hsub : ({[x]} ∪ {[y]} : gset string) ⊆ X) by set_solver.
    apply subseteq_size in Hsub.
    rewrite size_union in Hsub by set_solver.
    rewrite !size_singleton in Hsub. lia.
Qed.

Lemma filter_two {A} (P : A → Prop) `{∀ x, Decision (P x)} (l : list A) i j a b :
  i ≠ j → l !! i = Some a → l !! j = Some b → P a → P b →
  (2 ≤ length (filter P l))%nat.
Proof.
  assert (Hone : ∀ (k : list A) x, x ∈ k → P x → (1 ≤ length (filter P k))%nat).
  { intros k x Hx HP.
    assert (Hin : x ∈ filter P k) by (by apply list_elem_of_filter).
    destruct (filter P k); [ by apply elem_of_nil in Hin | simpl; lia ]. }
  assert (Hlt : ∀ i j a b, (i < j)%nat → l !! i = Some a → l !! j = Some b →
            P a → P b → (2 ≤ length (filter P l))%nat).
  { clear i j a b. intros i j a b Hij Hi Hj Ha Hb.
    rewrite <- (take_drop j l), filter_app, length_app.
    assert (Hta : a ∈ take j l).
    { apply list_elem_of_lookup. exists i. by rewrite lookup_take_lt. }
    assert (Hdb : b ∈ drop j l).
    { apply list_elem_of_lookup. exists 0%nat. rewrite lookup_drop.
      by rewrite Nat.add_0_r. }
    pose proof (Hone _ _ Hta Ha). pose proof (Hone _ _ Hdb Hb). lia. }
  intros Hne Hi Hj Ha Hb.
  destruct (decide (i < j)%nat); [ by eapply (Hlt i j a b) | ].
  eapply (Hlt j i b a); [ lia | done.. ].
Qed.

(** *** Claims about the groups *)

(** C3: [build_content_groups] groups the records by fingerprint and returns
    exactly the groups with two or more members: each key occurs once, the
    group under fingerprint [h] lists every record with that fingerprint, in
    order, whatever its path and location, and it is returned exactly when it
    has at least two members; so two records with one fingerprint land in the
    same returned group. *)
Theorem build_content_groups_spec (records : list record) :
  NoDup (build_content_groups records).*1
  ∧ (∀ h lst, (h, lst) ∈ build_content_groups records ↔
       lst = content_entry <$> filter (fun r => sha r = h) records
       ∧ (2 ≤ length lst)%nat)
  ∧ (∀ i j r1 r2, i ≠ j → records !! i = Some r1 → records !! j = Some r2 →
       sha r1 = sha r2 →
       ∃ lst, (sha r1, lst) ∈ build_content_groups records
              ∧ content_entry r1 ∈ lst ∧ content_entry r2 ∈ lst).
Proof.
  unfold build_content_groups.
  change (foldl _ [] records) with (foldl (group_step sha content_entry) [] records).
  assert (Hspec : ∀ h lst,
    (h, lst) ∈ filter (fun e : string * list (string * string * string) =>
                         (1 < length e.2)%nat)
                      (foldl (group_step sha content_entry) [] records) ↔
    lst = content_entry <$> filter (fun r => sha r = h) records
    ∧ (2 ≤ length lst)%nat).
  { intros h lst. rewrite list_elem_of_filter, group_elem. unfold members. simpl.
    split.
    - intros (? & ? & ?). split; [ done | lia ].
    - intros (-> & Hlen). split; [ lia | ]. split; [ done | ].
      intros Heq. rewrite Heq in Hlen. simpl in Hlen. lia. }
  split; [ | split ].
  - apply dict_filter_NoDup, group_NoDup. constructor.
  - exact Hspec.
  - intros i j r1 r2 Hne Hi Hj Hsha.
    exists (content_entry <$> filter (fun r => sha r = sha r1) records).
    split; [ | split ].
    + apply Hspec. split; [ done | ]. rewrite length_fmap.
      by apply (filter_two _ records i j r1 r2).
    + apply list_elem_of_fmap_2, list_elem_of_filter. split; [ done | ].
      by eapply list_elem_of_lookup_2.
    + apply list_elem_of_fmap_2, list_elem_of_filter. split; [ done | ].
      by eapply list_elem_of_lookup_2.
Qed.

(** C2: [build_conflict_groups] returns exactly the relative paths whose
    records carry at least two distinct fingerprints, each once and mapped to
    all of its records in order (location, absolute path, fingerprint); a path
    whose records all share one fingerprint is not returned. *)
Theorem build_conflict_groups_spec (records : list record) :
  NoDup (build_conflict_groups records).*1
  ∧ (∀ p items, (p, items) ∈ build_conflict_groups records ↔
       items = path_entry <$> filter (fun r => rel_path r = p) records
       ∧ ∃ a b, a ∈ items ∧ b ∈ items ∧ a.2 ≠ b.2)
  ∧ (∀ p h, (∀ r, r ∈ records → rel_path r = p → sha r = h) →
       p ∉ (build_conflict_groups records).*1).
Proof.
  unfold build_conflict_groups.
  change (foldl (fun d r => dict_append (rel_path r) (path_entry r) d) [] records)
    with (foldl (group_step rel_path path_entry) [] records).
  pose proof (group_NoDup rel_path path_entry records [] (NoDup_nil_2)) as ND.
  rewrite (dict_set_loop
    (fun e : string * list (string * string * string) =>
       (1 < size (list_to_set (e.2.*2) : gset string))%nat)) by done.
  simpl.
  assert (Hspec : ∀ p items,
    (p, items) ∈ filter (fun e : string * list (string * string * string) =>
                           (1 < size (list_to_set (e.2.*2) : gset string))%nat)
                        (foldl (group_step rel_path path_entry) [] records) ↔
    items = path_entry <$> filter (fun r => rel_path r = p) records
    ∧ ∃ a b, a ∈ items ∧ b ∈ items ∧ a.2 ≠ b.2).
  { intros p items. rewrite list_elem_of_filter, group_elem. unfold members. simpl.
    rewrite size_gt_1. split.
    - intros ((x & y & Hx & Hy & Hne) & -> & _). split; [ done | ].
      apply elem_of_list_to_set, list_elem_of_fmap in Hx as (a & -> & Ha).
      apply elem_of_list_to_set, list_elem_of_fmap in Hy as (b & -> & Hb).
      by exists a, b.
    - intros (-> & a & b & Ha & Hb & Hne). split; [ | split; [ done | ] ].
      + exists a.2, b.2. rewrite !elem_of_list_to_set.
        split; [ by apply list_elem_of_fmap_2 | ].
        split; [ by apply list_elem_of_fmap_2 | done ].
      + intros Heq. rewrite Heq in Ha. by apply elem_of_nil in Ha. }
  split; [ | split ].
  - by apply dict_filter_NoDup.
  - exact Hspec.
  - intros p h Hall ([p' items] & -> & Hin)%list_elem_of_fmap. simpl in Hin.
    apply Hspec in Hin as (-> & a & b & Ha & Hb & Hne).
    apply list_elem_of_fmap in Ha as (ra & -> & [Hpa Hra]%list_elem_of_filter).
    apply list_elem_of_fmap in Hb as (rb & -> & [Hpb Hrb]%list_elem_of_filter).
    simpl in Hne. rewrite (Hall ra), (Hall rb) in Hne; done.
Qed.

(** *** The reports *)

Lemma item_ltb_true x y : item_ltb x y = true → String.le x.1 y.1.
Proof.
  unfold item_ltb. destruct (decide (x.1 = y.1)) as [ -> | Hne ]; [ done | ].
  unfold String.ltb, String.le, String.leb.
  by destruct (String.compare x.1 y.1).
Qed.

Lemma item_ltb_false x y : item_ltb x y = false → String.le y.1 x.1.
Proof.
  unfold item_ltb. destruct (decide (x.1 = y.1)) as [ -> | Hne ]; [ done | ].
  unfold String.ltb, String.le, String.leb.
  rewrite (String.compare_antisym x.1 y.1).
  by destruct (String.compare y.1 x.1).
Qed.

(** The rows of a sorted dict stay in the order of its keys. *)
Lemma rows_StronglySorted {B} (rows : string * list (string * string * string) → list B)
    (rel : B → string) (l : dict (list (string * string * string))) :
  (∀ e r, r ∈ rows e → rel r = e.1) →
  StronglySorted (fun a b => String.le a.1 b.1) l →
  StronglySorted (fun r1 r2 => String.le (rel r1) (rel r2)) (l ≫= rows).
Proof.
  intros Hrel. induction 1 as [ | e l Hl IH Hall ]; csimpl; [ constructor | ].
  apply StronglySorted_app. split; [ | split; [ | done ] ].
  - intros r1 r2 Hr1 (e' & Hr2 & He')%list_elem_of_bind.
    rewrite (Hrel _ _ Hr1), (Hrel _ _ Hr2).
    rewrite Forall_forall in Hall. by apply Hall.
  - assert (Hsame : ∀ k, (∀ r, r ∈ k → rel r = e.1) →
              StronglySorted (fun r1 r2 => String.le (rel r1) (rel r2)) k).
    { induction k as [ | r k IHk ]; intros Hk; constructor.
      - apply IHk. intros r' Hr'. apply Hk. by right.
      - apply Forall_forall. intros r' Hr'.
        rewrite (Hk r) by (by left). rewrite (Hk r') by (by right). done. }
    apply Hsame. intros r Hr. by apply Hrel.
Qed.

(** C6 (as amended): the rows of the duplicates report are in descending order
    of group size and cover every group; the rows of the conflicts report are
    in ascending order of relative path; and the rows of one conflict group
    are adjacent and in the order of the group's entries, which is the order
    the records were collected in, not the order of the location names. *)
Theorem reports_sorted (groups conflicts : dict (list (string * string * string))) :
  Sorted (fun r1 r2 => (r2.1.2 ≤ r1.1.2)%nat) (write_duplicates_csv groups)
  ∧ (fun r => (r.1.1, r.1.2)) <$> write_duplicates_csv groups
      ≡ₚ (fun e => (e.1, length e.2)) <$> groups
  ∧ Sorted (fun r1 r2 => String.le r1.1.1 r2.1.1) (write_conflicts_csv conflicts)
  ∧ (∀ p entries, (p, entries) ∈ conflicts →
       ∃ before after,
         write_conflicts_csv conflicts
         = before ++ ((fun x => (p, x.1.1, x.2)) <$> entries) ++ after).
Proof.
  split; [ | split; [ | split ] ].
  - unfold write_duplicates_csv.
    apply (Sorted_fmap _ (flip (fun x y : string * list (string * string * string) =>
                                  (length x.2 ≤ length y.2)%nat))); [ done | ].
    apply sorted_descending.
    + intros x y Hlt%Nat.ltb_lt. lia.
    + intros x y Hge%Nat.ltb_ge. lia.
  - unfold write_duplicates_csv. rewrite <- list_fmap_compose.
    by rewrite sorted_Permutation.
  - unfold write_conflicts_csv.
    apply StronglySorted_Sorted.
    apply (rows_StronglySorted _ (fun r => r.1.1)).
    + intros e r (x & -> & _)%list_elem_of_fmap. done.
    + apply Sorted_StronglySorted; [ intros a b c; apply transitivity | ].
      apply sorted_ascending; [ apply item_ltb_true | apply item_ltb_false ].
  - intros p entries Hin. unfold write_conflicts_csv.
    assert (Hin' : (p, entries) ∈ sorted item_ltb false conflicts)
      by (by rewrite sorted_Permutation).
    apply list_elem_of_split in Hin' as (l1 & l2 & ->).
    rewrite bind_app. csimpl.
    by eexists _, _.
Qed.

(** C6 as stated fails inside a conflict group: with the records of
    [a.swift] collected from [current] and then [backup], as the [LOCATIONS]
    table orders them, the row of [current] comes before the row of
    [backup]. *)
Example conflict_rows_not_by_location :
  write_conflicts_csv
    (build_conflict_groups
       [ Rec "a.swift" "current" "/w/Dontpullup/a.swift" "h1";
         Rec "a.swift" "backup" "/w/Dontpullup.bak/a.swift" "h2" ])
  = [ ("a.swift", "current", "h1"); ("a.swift", "backup", "h2") ]
  ∧ String.ltb "backup" "current" = true.
Proof. split; vm_compute; reflexivity. Qed.

(** *** The scan *)

Section scan_lemmas.
Variable sha256 : string → string.
Variable w : world.

(** What one file contributes to the records and to the log. *)
Definition file_record (loc_key abs_root rel : string) : option record :=
  Rec rel loc_key (path_join abs_root rel)
    <$> compute_sha256 sha256 w (path_join abs_root rel).
Definition file_warning (abs_root rel : string) : option log_line :=
  match compute_sha256 sha256 w (path_join abs_root rel) with
  | None => Some (Warn (path_join abs_root rel))
  | Some _ => None
  end.

Lemma scan_files loc_key abs_root rels : ∀ st,
  foldl (scan_file sha256 w loc_key abs_root) st rels
  = (st.1 ++ omap (file_record loc_key abs_root) rels,
     st.2 ++ omap (file_warning abs_root) rels).
Proof.
  induction rels as [ | rel rels IH ]; intros [recs log]; csimpl.
  - by rewrite !app_nil_r.
  - rewrite IH. unfold scan_file, file_record, file_warning.
    destruct (compute_sha256 sha256 w (path_join abs_root rel)); simpl;
      by rewrite <- ?app_assoc.
Qed.

(** What one location contributes. *)
Definition location_records (loc : string * string) : list record :=
  if isdir w (abs_root_of w loc.2)
  then omap (file_record loc.1 (abs_root_of w loc.2))
            (iglob_swift w (abs_root_of w loc.2))
  else [].
Definition location_warnings (loc : string * string) : list log_line :=
  if isdir w (abs_root_of w loc.2)
  then omap (file_warning (abs_root_of w loc.2))
            (iglob_swift w (abs_root_of w loc.2))
  else [].

Lemma scan_locations locations : ∀ st,
  foldl (scan_location sha256 w) st locations
  = (st.1 ++ (locations ≫= location_records),
     st.2 ++ (locations ≫= location_warnings)).
Proof.
  induction locations as [ | loc locations IH ]; intros [recs log]; csimpl.
  - by rewrite !app_nil_r.
  - rewrite IH. unfold scan_location, location_records, location_warnings.
    destruct (isdir w (abs_root_of w loc.2)); simpl.
    + rewrite scan_files. simpl. by rewrite <- !app_assoc.
    + done.
Qed.

Lemma collect_swift_files_eq locations :
  collect_swift_files sha256 w locations
  = (locations ≫= location_records, locations ≫= location_warnings).
Proof. unfold collect_swift_files. by rewrite scan_locations. Qed.
End scan_lemmas.

(** C8: the scan always returns. Its records are exactly the files found
    under the roots that exist and that could be hashed; a file that could not
    be opened or read is left out of the records and has a warning in the log
    instead; and a root that does not exist changes nothing: the scan returns
    what it returns without that location, so the locations before and after
    it are scanned all the same. *)
Theorem collect_swift_files_resilient (sha256 : string → string) (w : world)
    (locations : dict string) :
  (∀ r, r ∈ (collect_swift_files sha256 w locations).1 ↔
     ∃ loc_root bytes,
       (location r, loc_root) ∈ locations
       ∧ isdir w (abs_root_of w loc_root) = true
       ∧ rel_path r ∈ iglob_swift w (abs_root_of w loc_root)
       ∧ abs_path r = path_join (abs_root_of w loc_root) (rel_path r)
       ∧ read_bytes w (abs_path r) = Some bytes
       ∧ sha r = sha256 bytes)
  ∧ (∀ path, Warn path ∈ (collect_swift_files sha256 w locations).2 ↔
     ∃ loc_key loc_root rel,
       (loc_key, loc_root) ∈ locations
       ∧ isdir w (abs_root_of w loc_root) = true
       ∧ rel ∈ iglob_swift w (abs_root_of w loc_root)
       ∧ path = path_join (abs_root_of w loc_root) rel
       ∧ read_bytes w path = None)
  ∧ (∀ before after loc, locations = before ++ loc :: after →
       isdir w (abs_root_of w loc.2) = false →
       collect_swift_files sha256 w locations
       = collect_swift_files sha256 w (before ++ after)).
Proof.
  rewrite collect_swift_files_eq. simpl. split; [ | split ].
  - intros r. rewrite list_elem_of_bind. unfold location_records. split.
    + intros ([k root] & Hr & Hin). simpl in Hr.
      destruct (isdir w (abs_root_of w root)) eqn:Hd; [ | by apply elem_of_nil in Hr ].
      apply list_elem_of_omap in Hr as (rel & Hrel & Hf).
      unfold file_record, compute_sha256 in Hf.
      destruct (read_bytes w (path_join (abs_root_of w root) rel)) as [bytes|] eqn:Hb;
        [ | done ].
      injection Hf as <-. simpl. by exists root, bytes.
    + intros (root & bytes & Hin & Hd & Hrel & Habs & Hb & Hs).
      exists (location r, root). split; [ | done ]. simpl. rewrite Hd.
      apply list_elem_of_omap. exists (rel_path r). split; [ done | ].
      unfold file_record, compute_sha256. rewrite <- Habs, Hb. simpl.
      destruct r; simpl in *. by subst.
  - intros path. rewrite list_elem_of_bind. unfold location_warnings. split.
    + intros ([k root] & Hw & Hin). simpl in Hw.
      destruct (isdir w (abs_root_of w root)) eqn:Hd; [ | by apply elem_of_nil in Hw ].
      apply list_elem_of_omap in Hw as (rel & Hrel & Hf).
      unfold file_warning, compute_sha256 in Hf.
      destruct (read_bytes w (path_join (abs_root_of w root) rel)) eqn:Hb;
        [ done | ].
      injection Hf as <-. by exists k, root, rel.
    + intros (k & root & rel & Hin & Hd & Hrel & -> & Hb).
      exists (k, root). split; [ | done ]. simpl. rewrite Hd.
      apply list_elem_of_omap. exists rel. split; [ done | ].
      unfold file_warning, compute_sha256. by rewrite Hb.
  - intros before after loc -> Hd.
    rewrite collect_swift_files_eq, !bind_app. csimpl.
    unfold location_records at 2, location_warnings at 2. by rewrite Hd.
Qed.

(** *** Further properties of the inventory *)

Lemma content_groups_elem (records : list record) h lst :
  (h, lst) ∈ build_content_groups records ↔
  lst = content_entry <$> filter (fun r => sha r = h) records ∧ (2 ≤ length lst)%nat.
Proof.
  unfold build_content_groups.
  change (foldl _ [] records) with (foldl (group_step sha content_entry) [] records).
  rewrite list_elem_of_filter, group_elem. unfold members. simpl. split.
  - intros (? & ? & ?). split; [ done | lia ].
  - intros (-> & Hlen). split; [ lia | ]. split; [ done | ].
    intros Heq. rewrite Heq in Hlen. simpl in Hlen. lia.
Qed.

Lemma content_groups_NoDup (records : list record) :
  NoDup (build_content_groups records).*1.
Proof.
  unfold build_content_groups.
  change (foldl _ [] records) with (foldl (group_step sha content_entry) [] records).
  apply dict_filter_NoDup, group_NoDup. constructor.
Qed.

Lemma conflict_groups_eq (records : list record) :
  build_conflict_groups records
  = filter (fun e : string * list (string * string * string) =>
              (1 < size (list_to_set (e.2.*2) : gset string))%nat)
           (foldl (group_step rel_path path_entry) [] records).
Proof.
  unfold build_conflict_groups.
  change (foldl (fun d r => dict_append (rel_path r) (path_entry r) d) [] records)
    with (foldl (group_step rel_path path_entry) [] records).
  pose proof (group_NoDup rel_path path_entry records [] (NoDup_nil_2)) as ND.
  by rewrite (dict_set_loop
    (fun e : string * list (string * string * string) =>
       (1 < size (list_to_set (e.2.*2) : gset string))%nat)).
Qed.

Lemma conflict_groups_elem (records : list record) p items :
  (p, items) ∈ build_conflict_groups records ↔
  items = path_entry <$> filter (fun r => rel_path r = p) records
  ∧ ∃ a b, a ∈ items ∧ b ∈ items ∧ a.2 ≠ b.2.
Proof.
  rewrite conflict_groups_eq, list_elem_of_filter, group_elem. unfold members. simpl.
  rewrite size_gt_1. split.
  - intros ((x & y & Hx & Hy & Hne) & -> & _). split; [ done | ].
    apply elem_of_list_to_set, list_elem_of_fmap in Hx as (a & -> & Ha).
    apply elem_of_list_to_set, list_elem_of_fmap in Hy as (b & -> & Hb).
    by exists a, b.
  - intros (-> & a & b & Ha & Hb & Hne). split; [ | split; [ done | ] ].
    + exists a.2, b.2. rewrite !elem_of_list_to_set.
      split; [ by apply list_elem_of_fmap_2 | ].
      split; [ by apply list_elem_of_fmap_2 | done ].
    + intros Heq. rewrite Heq in Ha. by apply elem_of_nil in Ha.
Qed.

Lemma filter_key_NoDup {A} (f : A → string) (l : list A) h :
  NoDup (f <$> l) → (length (filter (fun r => f r = h) l) ≤ 1)%nat.
Proof.
  induction l as [ | x l IH ]; simpl; [ lia | ].
  intros [Hx ND]%NoDup_cons. rewrite filter_cons.
  destruct (decide (f x = h)) as [ Hh | Hh ]; [ | by apply IH ].
  assert (Hnil : filter (fun r => f r = h) l = []).
  { destruct (filter (fun r => f r = h) l) as [ | y k ] eqn:E; [ done | ].
    assert (Hy : y ∈ filter (fun r => f r = h) l) by (rewrite E; by left).
    apply list_elem_of_filter in Hy as [Hfy Hin].
    destruct Hx. rewrite Hh, <- Hfy. by apply list_elem_of_fmap_2. }
  rewrite Hnil. simpl. lia.
Qed.

(** X5: The scan accounts for every file it finds: each file found under a root
    that exists is either in the records or has a warning in the log, so the
    two together are as many as the files found. *)
Theorem collect_swift_files_accounts (sha256 : string → string) (w : world)
    (locations : dict string) :
  (length (collect_swift_files sha256 w locations).1
   + length (collect_swift_files sha256 w locations).2
   = length (locations ≫= fun loc =>
               if isdir w (abs_root_of w loc.2)
               then iglob_swift w (abs_root_of w loc.2) else []))%nat.
Proof.
  rewrite collect_swift_files_eq. simpl.
  induction locations as [ | loc locations IH ]; csimpl; [ done | ].
  rewrite !length_app. unfold location_records at 1, location_warnings at 1.
  destruct (isdir w (abs_root_of w loc.2)); simpl; [ | exact IH ].
  assert (Hone : ∀ rels,
            (length (omap (file_record sha256 w loc.1 (abs_root_of w loc.2)) rels)
             + length (omap (file_warning sha256 w (abs_root_of w loc.2)) rels)
             = length rels)%nat).
  { induction rels as [ | rel rels IHr ]; csimpl; [ done | ].
    unfold file_record, file_warning.
    destruct (compute_sha256 sha256 w (path_join (abs_root_of w loc.2) rel));
      simpl; unfold file_record, file_warning in IHr; lia. }
  specialize (Hone (iglob_swift w (abs_root_of w loc.2))). lia.
Qed.

(** X6: Scanning a table of locations is scanning its parts one after the other:
    the records and the log of a table put together from two tables are those
    of the first followed by those of the second. *)
Theorem collect_swift_files_app (sha256 : string → string) (w : world)
    (locations1 locations2 : dict string) :
  collect_swift_files sha256 w (locations1 ++ locations2)
  = ((collect_swift_files sha256 w locations1).1
       ++ (collect_swift_files sha256 w locations2).1,
     (collect_swift_files sha256 w locations1).2
       ++ (collect_swift_files sha256 w locations2).2).
Proof. rewrite !collect_swift_files_eq. simpl. by rewrite !bind_app. Qed.

(** X7: The duplicates report of a scan: one row for each fingerprint that at
    least two records carry, no fingerprint twice, and the count of a row is
    the number of records with its fingerprint, so never below two. *)
Theorem duplicates_report_rows (records : list record) :
  NoDup ((fun row => row.1.1) <$> write_duplicates_csv (build_content_groups records))
  ∧ (∀ h, h ∈ (fun row => row.1.1) <$> write_duplicates_csv (build_content_groups records)
          ↔ (2 ≤ length (filter (fun r => sha r = h) records))%nat)
  ∧ (∀ row, row ∈ write_duplicates_csv (build_content_groups records) →
       (2 ≤ row.1.2)%nat
       ∧ row.1.2 = length (filter (fun r => sha r = row.1.1) records)).
Proof.
  assert (Hkeys : (fun row : string * nat * string => row.1.1)
                    <$> write_duplicates_csv (build_content_groups records)
                  ≡ₚ (build_content_groups records).*1).
  { unfold write_duplicates_csv. rewrite <- list_fmap_compose.
    by rewrite sorted_Permutation. }
  assert (Hrow : ∀ row, row ∈ write_duplicates_csv (build_content_groups records) →
            ∃ lst, (row.1.1, lst) ∈ build_content_groups records ∧ row.1.2 = length lst).
  { unfold write_duplicates_csv. intros row ([h lst] & -> & Hin)%list_elem_of_fmap.
    rewrite sorted_Permutation in Hin. by exists lst. }
  split; [ | split ].
  - rewrite Hkeys. apply content_groups_NoDup.
  - intros h. rewrite Hkeys, list_elem_of_fmap. split.
    + intros ([h' lst] & -> & (-> & Hlen)%content_groups_elem). simpl.
      by rewrite length_fmap in Hlen.
    + intros Hlen. exists (h, content_entry <$> filter (fun r => sha r = h) records).
      split; [ done | ]. apply content_groups_elem. by rewrite length_fmap.
  - intros row Hin.
    destruct (Hrow row Hin) as (lst & (-> & Hlen)%content_groups_elem & Hcount).
    rewrite Hcount. rewrite length_fmap in *. done.
Qed.

(** X8: The conflicts report of a scan has a row for a record exactly when some
    other record has the same relative path and another fingerprint; the row
    carries the record's path, location and fingerprint. *)
Theorem conflicts_report_rows (records : list record) (rel loc h : string) :
  (rel, loc, h) ∈ write_conflicts_csv (build_conflict_groups records) ↔
  ∃ r r', r ∈ records ∧ r' ∈ records
          ∧ rel_path r = rel ∧ location r = loc ∧ sha r = h
          ∧ rel_path r' = rel ∧ sha r' ≠ h.
Proof.
  unfold write_conflicts_csv. rewrite list_elem_of_bind. split.
  - intros ([p items] & Hrow & Hin). rewrite sorted_Permutation in Hin.
    apply conflict_groups_elem in Hin as (-> & a & b & Ha & Hb & Hne).
    simpl in Hrow.
    apply list_elem_of_fmap in Hrow as (x & [= -> -> ->] & Hx).
    apply list_elem_of_fmap in Hx as (r & -> & [Hp Hr]%list_elem_of_filter).
    apply list_elem_of_fmap in Ha as (ra & -> & [Hpa Hra]%list_elem_of_filter).
    apply list_elem_of_fmap in Hb as (rb & -> & [Hpb Hrb]%list_elem_of_filter).
    simpl in *.
    destruct (decide (sha ra = sha r)) as [Heq | Hdiff].
    + exists r, rb. repeat split; try done. congruence.
    + exists r, ra. repeat split; done.
  - intros (r & r' & Hr & Hr' & Hp & Hl & Hs & Hp' & Hne).
    exists (rel, path_entry <$> filter (fun r => rel_path r = rel) records).
    split.
    + simpl. apply list_elem_of_fmap. exists (path_entry r). split.
      * unfold path_entry. simpl. by rewrite Hl, Hs.
      * apply list_elem_of_fmap_2, list_elem_of_filter. done.
    + rewrite sorted_Permutation. apply conflict_groups_elem. split; [ done | ].
      exists (path_entry r), (path_entry r'). split; [ | split ].
      * apply list_elem_of_fmap_2, list_elem_of_filter. done.
      * apply list_elem_of_fmap_2, list_elem_of_filter. done.
      * simpl. congruence.
Qed.

(** X9: Records with pairwise different fingerprints make no duplicate group. *)
Theorem no_duplicates_without_shared_fingerprint (records : list record) :
  NoDup (sha <$> records) → build_content_groups records = [].
Proof.
  intros ND.
  destruct (build_content_groups records) as [ | [h lst] groups ] eqn:E; [ done | ].
  assert (Hin : (h, lst) ∈ build_content_groups records) by (rewrite E; by left).
  apply content_groups_elem in Hin as (-> & Hlen). rewrite length_fmap in Hlen.
  pose proof (filter_key_NoDup sha records h ND). lia.
Qed.

Lemma no_duplicates_without_shared_fingerprint_witness :
  build_content_groups
    [ Rec "a.swift" "current" "/w/a.swift" "h1";
      Rec "a.swift" "backup" "/b/a.swift" "h2" ] = [].
Proof.
  apply no_duplicates_without_shared_fingerprint.
  simpl. repeat constructor; set_solver.
Defined.

(** X10: Records with pairwise different relative paths make no conflict. *)
Theorem no_conflicts_without_shared_path (records : list record) :
  NoDup (rel_path <$> records) → build_conflict_groups records = [].
Proof.
  intros ND.
  destruct (build_conflict_groups records) as [ | [p items] groups ] eqn:E; [ done | ].
  assert (Hin : (p, items) ∈ build_conflict_groups records) by (rewrite E; by left).
  apply conflict_groups_elem in Hin as (-> & a & b & Ha & Hb & Hne).
  pose proof (filter_key_NoDup rel_path records p ND) as Hle.
  destruct (filter (fun r => rel_path r = p) records) as [ | x [ | y k ] ];
    simpl in *; [ by apply elem_of_nil in Ha | | lia ].
  apply list_elem_of_singleton in Ha, Hb. congruence.
Qed.

Lemma no_conflicts_without_shared_path_witness :
  build_conflict_groups
    [ Rec "a.swift" "current" "/w/a.swift" "h1";
      Rec "b.swift" "current" "/w/b.swift" "h2" ] = [].
Proof.
  apply no_conflicts_without_shared_path.
  simpl. repeat constructor; set_solver.
Defined.

End Inventory.

(** ** Snapshot recovery ([extract_files.py], [extract_file.py]) *)

Module Recovery.

(** A Python [float]: a finite one by the rational it denotes, which is what
    [<] and [==] compare, the negative zero, an infinity, or NaN.
    [json.loads] reads [Infinity], [-Infinity] and [NaN] too. *)
Inductive pyfloat :=
  | Finite (q : Q)
  | NegZero
  | Infinity (negative : bool)
  | NaN.

(** What [json.loads] returns. A string is the sequence of its code points,
    lone surrogates included ([json.loads] accepts the escape of one); an
    object is a dict in the order of the text. *)
#[local] Set Warnings "-register-all".
Inductive json :=
  | JNull
  | JBool (b : bool)
  | JInt (z : Z)
  | JFloat (x : pyfloat)
  | JStr (s : string)
  | JList (l : list json)
  | JDict (d : list (string * json)).

(** The number a value is, if it is a finite one ([bool] is a subclass of
    [int]). *)
Definition num_of (j : json) : option Q :=
  match j with
  | JBool b => Some (inject_Z (if b then 1 else 0))
  | JInt z => Some (inject_Z z)
  | JFloat (Finite q) => Some q
  | JFloat NegZero => Some (inject_Z 0)
  | _ => None
  end.

(** A number on the extended line, or NaN. *)
Inductive ext :=
  | ENaN
  | ENegInf
  | EFin (q : Q)
  | EPosInf.

Definition ext_of (j : json) : option ext :=
  match j with
  | JFloat NaN => Some ENaN
  | JFloat (Infinity negative) => Some (if negative then ENegInf else EPosInf)
  | _ => EFin <$> num_of j
  end.

(** [<] on numbers: false whenever a NaN is compared. *)
Definition ext_ltb (a b : ext) : bool :=
  match a, b with
  | ENaN, _ | _, ENaN => false
  | EFin x, EFin y => negb (Qle_bool y x)
  | ENegInf, ENegInf => false
  | ENegInf, _ => true
  | _, ENegInf => false
  | EPosInf, _ => false
  | _, EPosInf => true
  end.

(** Equality of numbers as containers test it, identity first and [==] next:
    [json.loads] returns one and the same object for every [NaN] it reads, so
    a NaN is found equal to a NaN here, though [==] alone says it is not. *)
Definition ext_eqb (a b : ext) : bool :=
  match a, b with
  | ENaN, ENaN => true
  | EFin x, EFin y => Qeq_bool x y
  | ENegInf, ENegInf => true
  | EPosInf, EPosInf => true
  | _, _ => false
  end.

(** Equality of these values as a container tests it on its elements
    ([x in l], and [==] and [<] of lists and dicts). *)
Fixpoint py_eq (a b : json) : bool :=
  match a, b with
  | JNull, JNull => true
  | JStr s, JStr t => bool_decide (s = t)
  | JList xs, JList ys =>
      (fix eq_list (xs ys : list json) : bool :=
         match xs, ys with
         | [], [] => true
         | x :: xs', y :: ys' => py_eq x y && eq_list xs' ys'
         | _, _ => false
         end) xs ys
  | JDict d, JDict e =>
      (length d =? length e)%nat
      && (fix all (d : list (string * json)) : bool :=
            match d with
            | [] => true
            | (k, v) :: d' =>
                match dict_get k e with
                | Some v' => py_eq v v'
                | None => false
                end && all d'
            end) d
  | _, _ =>
      match ext_of a, ext_of b with
      | Some x, Some y => ext_eqb x y
      | _, _ => false
      end
  end.

(** Python's [<] on these values; [None] is the [TypeError] of an unsupported
    comparison. *)
Fixpoint py_lt (a b : json) : option bool :=
  match a, b with
  | JStr s, JStr t => Some (String.ltb s t)
  | JList xs, JList ys =>
      (fix lt_list (xs ys : list json) : option bool :=
         match xs, ys with
         | [], [] => Some false
         | [], _ :: _ => Some true
         | _ :: _, [] => Some false
         | x :: xs', y :: ys' => if py_eq x y then lt_list xs' ys' else py_lt x y
         end) xs ys
  | _, _ =>
      match ext_of a, ext_of b with
      | Some x, Some y => Some (ext_ltb x y)
      | _, _ => None
      end
  end.

(** [sub in s] on strings. *)
Fixpoint contains (sub s : string) : bool :=
  starts_with sub s
  || match s with
     | EmptyString => false
     | String _ s' => contains sub s'
     end.

(** One step of the stable insertion when the comparison may raise. *)
Fixpoint insort_raising {A} (lt : A -> A -> option bool) (x : A) (l : list A)
    : option (list A) :=
  match l with
  | [] => Some [x]
  | y :: l' =>
      b ← lt x y;
      if b : bool then Some (x :: l) else cons y <$> insort_raising lt x l'
  end.

(** [sorted(l, key=key)]: the keys are computed first, for every element, and
    the elements are then ordered by [<] on their keys; an exception of [key]
    or of [<] leaves the call. *)
Definition sorted_by_key {A K} (key : A -> option K) (lt : K -> K -> option bool)
    (l : list A) : option (list A) :=
  match mapM key l with
  | None => None
  | Some ks =>
      match for_each (fun acc kx => insort_raising (fun a b => lt a.1 b.1) kx acc)
                     [] (zip ks l) with
      | None => None
      | Some kxs => Some (kxs.*2)
      end
  end.

(** [x.get(k, dflt)]; [None] is the [AttributeError] of a value that is not a
    dict. *)
Definition py_get (x : json) (k : string) (dflt : json) : option json :=
  match x with
  | JDict d => Some (default dflt (dict_get k d))
  | _ => None
  end.

(** The sort key [lambda x: x.get("range", {}).get("start", 0)]. *)
Definition chunk_key (x : json) : option json :=
  r ← py_get x "range" (JDict []);
  py_get r "start" (JInt 0).

(** A key whose comparisons do not depend on what it is compared with: any
    value but a NaN, which [<] relates to no number, and a list, whose [<]
    raises or not according to the elements it reaches. *)
Definition flat_key (k : json) : bool :=
  match k with
  | JFloat NaN | JList _ => false
  | _ => true
  end.

(** The elements of [l] at the positions [idx], in the order of [idx]. *)
Definition reorder {A} (l : list A) (idx : list nat) : list A :=
  omap (fun i => l !! i) idx.

(** [sorted(chunks, key=...)]. The keys are computed first. With flat keys the
    result does not depend on how CPython sorts: numbers alone, or strings
    alone, are totally ordered and the sort is stable, and any other mix of
    two or more flat keys raises at the first comparison across them. Nor
    does it with fewer than two keys, which are not compared at all. For
    other keys the comparisons CPython makes decide, and the outcome is taken
    from [list_sort]: for a list of keys, the positions of the elements in the
    order of the result, or [None] when a comparison raised. A sort returns a
    rearrangement; an answer of [list_sort] that is not one is read as the
    exception. *)
Definition sorted_chunks (list_sort : list json -> option (list nat))
    (chunks : list json) : option (list json) :=
  match mapM chunk_key chunks with
  | None => None
  | Some ks =>
      if forallb flat_key ks || (length ks <? 2)%nat then
        sorted_by_key chunk_key py_lt chunks
      else
        match list_sort ks with
        | Some idx =>
            if decide (idx ≡ₚ seq 0 (length chunks)) then Some (reorder chunks idx)
            else None
        | None => None
        end
  end.

(** The chunks in the order the loop reads them: sorted, or as they were when
    sorting raised ([try: ... except: pass]). *)
Definition order_chunks (list_sort : list json -> option (list nat))
    (chunks : list json) : list json :=
  default chunks (sorted_chunks list_sort chunks).

(** ["chunk" in chunk]; [None] is the [TypeError] of a value that is not a
    container. *)
Definition has_chunk (chunk : json) : option bool :=
  match chunk with
  | JDict d => Some (bool_decide (is_Some (dict_get "chunk" d)))
  | JStr s => Some (contains "chunk" s)
  | JList l => Some (existsb (py_eq (JStr "chunk")) l)
  | _ => None
  end.

(** Body of the loop: [if "chunk" in chunk: swift_code += chunk["chunk"]].
    Subscripting a string or a list with a string raises, and so does adding
    a value that is not a string. *)
Definition append_chunk (swift_code : string) (chunk : json) : option string :=
  b ← has_chunk chunk;
  if b : bool then
    match chunk with
    | JDict d =>
        v ← dict_get "chunk" d;
        match v with
        | JStr s => Some (swift_code +:+ s)
        | _ => None
        end
    | _ => None
    end
  else Some swift_code.

(** The text of a list of chunks; [None] when the loop raises. *)
Definition recover_chunks (list_sort : list json -> option (list nat))
    (chunks : list json) : option string :=
  for_each append_chunk EmptyString (order_chunks list_sort chunks).

(** What [json.loads] does with a text. *)
Inductive parse_result :=
  | Parsed (data : json)
  | DecodeError     (* json.JSONDecodeError *)
  | OtherError.     (* another exception: RecursionError, ValueError *)

(** What the machine answers when a script writes a file: whether
    [open(path, 'w')] succeeds, and whether [out.write(text)] and the closing
    of the file do. A text with a lone surrogate cannot be encoded, and
    [out.write] raises [UnicodeEncodeError] on it. *)
Record output := Output {
  can_open : string -> bool;
  can_write : string -> string -> bool
}.

(** What a script has done to an output file. *)
Inductive file_effect :=
  | Untouched                 (* the file was not opened *)
  | Truncated                 (* opened for writing and left empty *)
  | Written (text : string).  (* the file holds the text *)

(** [with open(path, 'w') as out: out.write(text)]. *)
Definition write_file (out : output) (path text : string) : file_effect :=
  if can_open out path then
    if can_write out path text then Written text else Truncated
  else Untouched.

Section Extract.
(** How CPython sorts keys that [<] does not order (see [sorted_chunks]). *)
Variable list_sort : list json -> option (list nat).
(** [json.loads]. *)
Variable json_loads : string -> parse_result.
(** [str(data)] for a value that is not a string; [None] when it raises. *)
Variable py_repr : json -> option string.
Variable out : output.

(** The body of the [try] of [extract_swift_from_json] once the file is
    read and parsed: the outer [None] is an exception, the inner one the
    value [None]. *)
Definition extract_from_data (data : json) : option (option string) :=
  match data with
  | JDict d =>
      match dict_get "documentChunks" d with
      | Some (JList chunks) => Some <$> recover_chunks list_sort chunks
      | _ => Some None
      end
  | JStr s => Some (Some s)
  | _ => Some None
  end.

(** [extract_swift_from_json], on the contents of the file ([None] when it
    cannot be opened or read). Every exception is caught, reported and
    turned into [None]. *)
Definition extract_swift_from_json (file : option string) : option string :=
  match (raw_data ← file;
         match json_loads raw_data with
         | Parsed data => extract_from_data data
         | DecodeError | OtherError => None
         end) with
  | Some result => result
  | None => None
  end.

Definition py_str (data : json) : option string :=
  match data with JStr s => Some s | _ => py_repr data end.

Definition quote : string := String (ascii_of_nat 34) EmptyString.

(** [output_file] of [extract_file.py]. *)
Definition output_file : string :=
  "/Users/melfranklin/DontpullupFix/Views/SplashScreen.swift".

(** [swift_code] of [extract_file.py] for a parsed snapshot; [None] is an
    exception, which no handler between here and the outer [except] takes. *)
Definition swift_code_of (data : json) : option string :=
  match data with
  | JDict d =>
      match dict_get "documentChunks" d with
      | Some (JList chunks) => recover_chunks list_sort chunks
      | Some _ => Some EmptyString
      | None => py_str data
      end
  | _ => py_str data
  end.

(** The module body of [extract_file.py]: what it does to the output file.
    The outer [except Exception] takes every exception, so the script raises
    nothing; one raised by [out.write] leaves the file opened and empty. What
    the script prints is left out. *)
Definition extract_file (file : option string) : file_effect :=
  match file with
  | None => Untouched
  | Some raw_data =>
      match json_loads raw_data with
      | Parsed data =>
          match swift_code_of data with
          | Some swift_code => write_file out output_file swift_code
          | None => Untouched
          end
      | DecodeError =>                             (* except json.JSONDecodeError *)
          if starts_with quote raw_data && ends_with quote raw_data then
            match json_loads raw_data with
            | Parsed (JStr code) => write_file out output_file code
            | Parsed _ =>                          (* out.write raises TypeError *)
                if can_open out output_file then Truncated else Untouched
            | DecodeError | OtherError => Untouched
            end
          else write_file out output_file raw_data
      | OtherError => Untouched
      end
  end.
End Extract.

(** *** The order of the chunks *)

(** The offset a chunk is sorted by, when its key is a number: a chunk with no
    ["range"], or a range with no ["start"], has offset 0. *)
Definition start_of (c : json) : option Q := k ← chunk_key c; num_of k.

Definition chunk_ltb (a b : json) : bool :=
  match start_of a, start_of b with
  | Some x, Some y => negb (Qle_bool y x)
  | _, _ => false
  end.

(** [a] is at an offset no greater than [b]'s. *)
Definition starts_le (a b : json) : Prop :=
  match start_of a, start_of b with
  | Some x, Some y => (x <= y)%Q
  | _, _ => False
  end.

(** A chunk that is an object whose ["chunk"], if present, is a string. *)
Definition chunk_ok (c : json) : Prop :=
  ∃ d, c = JDict d ∧ (dict_get "chunk" d = None ∨ ∃ s, dict_get "chunk" d = Some (JStr s)).

(** The payload of a chunk that has one. *)
Definition payload_of (c : json) : option string :=
  match c with
  | JDict d => match dict_get "chunk" d with Some (JStr s) => Some s | _ => None end
  | _ => None
  end.

Definition concat_strings (ss : list string) : string := foldr String.append EmptyString ss.

Lemma ext_of_num a x : num_of a = Some x → ext_of a = Some (EFin x).
Proof.
  destruct a as [ | b | z | [ q | | n | ] | s | l | d ]; simpl; intros [= <-]; done.
Qed.

Lemma py_lt_num a b x y :
  num_of a = Some x → num_of b = Some y → py_lt a b = Some (negb (Qle_bool y x)).
Proof.
  intros Ha Hb.
  assert (E : py_lt a b = match ext_of a, ext_of b with
                          | Some x, Some y => Some (ext_ltb x y)
                          | _, _ => None
                          end).
  { destruct a as [ | ? | ? | [ ? | | ? | ] | ? | ? | ? ]; try discriminate Ha;
      destruct b as [ | ? | ? | [ ? | | ? | ] | ? | ? | ? ]; try discriminate Hb; done. }
  by rewrite E, (ext_of_num a x), (ext_of_num b y).
Qed.

Lemma num_flat_key k x : num_of k = Some x → flat_key k = true.
Proof. destruct k as [ | ? | ? | [ ? | | ? | ] | ? | ? | ? ]; done. Qed.

Lemma reorder_seq {A} (l : list A) : ∀ pre,
  reorder (pre ++ l) (seq (length pre) (length l)) = l.
Proof.
  unfold reorder. induction l as [ | x l IH ]; intros pre; [ done | ].
  cbn [length seq omap list_omap]. rewrite list_lookup_middle by done.
  f_equal. specialize (IH (pre ++ [x])).
  rewrite <- app_assoc, length_app in IH. simpl in IH.
  by rewrite Nat.add_1_r in IH.
Qed.

Lemma reorder_Permutation {A} (l : list A) idx :
  idx ≡ₚ seq 0 (length l) → reorder l idx ≡ₚ l.
Proof.
  intros Hperm. unfold reorder. rewrite Hperm.
  pose proof (reorder_seq l []) as E. unfold reorder in E. simpl in E. by rewrite E.
Qed.

Lemma insort_raising_Permutation {A} (lt : A → A → option bool) x l r :
  insort_raising lt x l = Some r → r ≡ₚ x :: l.
Proof.
  revert r. induction l as [ | y l IH ]; intros r; simpl.
  - by intros [= <-].
  - destruct (lt x y) as [[]|]; simpl; [ by intros [= <-] | | done ].
    destruct (insort_raising lt x l) as [r'|]; simpl; [ | done ].
    intros [= <-]. rewrite (IH r' eq_refl). apply Permutation_swap.
Qed.

Lemma sort_raising_Permutation {A} (lt : A → A → option bool) l : ∀ acc r,
  for_each (fun acc x => insort_raising lt x acc) acc l = Some r → r ≡ₚ acc ++ l.
Proof.
  induction l as [ | x l IH ]; intros acc r; simpl.
  - intros [= <-]. by rewrite app_nil_r.
  - destruct (insort_raising lt x acc) as [acc'|] eqn:E; simpl; [ | done ].
    intros Hrest%IH. rewrite Hrest, (insort_raising_Permutation _ _ _ _ E).
    simpl. apply Permutation_middle.
Qed.

Lemma sorted_by_key_Permutation (chunks sorted : list json) :
  sorted_by_key chunk_key py_lt chunks = Some sorted → sorted ≡ₚ chunks.
Proof.
  unfold sorted_by_key.
  destruct (mapM chunk_key chunks) as [ks|] eqn:Eks; [ | done ].
  destruct (for_each _ [] (zip ks chunks)) as [kxs|] eqn:Ekxs; [ | done ].
  intros [= <-]. apply sort_raising_Permutation in Ekxs. simpl in Ekxs.
  assert (Hlen : length chunks = length ks) by (by eapply length_mapM).
  rewrite Ekxs, snd_zip by lia. done.
Qed.

(** Whatever the keys and however they are sorted, the chunks are read in an
    order that is a rearrangement of the list. *)
Lemma order_chunks_perm list_sort (chunks : list json) :
  order_chunks list_sort chunks ≡ₚ chunks.
Proof.
  unfold order_chunks, sorted_chunks.
  destruct (mapM chunk_key chunks) as [ks|] eqn:Eks; [ | done ].
  destruct (forallb flat_key ks || (length ks <? 2)%nat).
  - destruct (sorted_by_key chunk_key py_lt chunks) as [sorted|] eqn:E; [ | done ].
    by apply sorted_by_key_Permutation.
  - destruct (list_sort ks) as [idx|]; [ | done ].
    case_decide; [ | done ]. by apply reorder_Permutation.
Qed.

(** With numbers for all the keys, sorting is [sorted_by_key]. *)
Lemma sorted_chunks_numeric list_sort (chunks : list json) :
  Forall (fun c => is_Some (start_of c)) chunks →
  sorted_chunks list_sort chunks = sorted_by_key chunk_key py_lt chunks.
Proof.
  intros Hall. unfold sorted_chunks.
  destruct (mapM chunk_key chunks) as [ks|] eqn:E.
  - assert (Hflat : forallb flat_key ks = true); [ | by rewrite Hflat ].
    apply mapM_Some_1 in E. clear -E Hall.
    induction E as [ | c k chunks ks Hk Hrel IH ]; [ done | ].
    apply Forall_cons in Hall as [[x Hx] Hall]. simpl.
    unfold start_of in Hx. rewrite Hk in Hx. simpl in Hx.
    by rewrite (num_flat_key k x), IH.
  - unfold sorted_by_key. by rewrite E.
Qed.

Section raising_sort.
Context {A : Type} (lt : A → A → option bool) (ltb : A → A → bool) (P : A → Prop).
Hypothesis lt_pure : ∀ x y, P x → P y → lt x y = Some (ltb x y).

Lemma insort_raising_pure x l :
  P x → Forall P l → insort_raising lt x l = Some (insort ltb x l).
Proof.
  intros Hx. induction 1 as [ | y l Hy Hl IH ]; simpl; [ done | ].
  rewrite lt_pure by done. simpl.
  destruct (ltb x y); [ done | ]. by rewrite IH.
Qed.

Lemma insort_Forall x l : P x → Forall P l → Forall P (insort ltb x l).
Proof. intros Hx Hl. rewrite insort_Permutation. by constructor. Qed.

Lemma sort_raising_pure l : ∀ acc,
  Forall P acc → Forall P l →
  for_each (fun acc x => insort_raising lt x acc) acc l
  = Some (foldl (fun acc x => insort ltb x acc) acc l).
Proof.
  induction l as [ | x l IH ]; intros acc Hacc Hl; simpl; [ done | ].
  apply Forall_cons in Hl as [Hx Hl].
  rewrite insort_raising_pure by done. simpl.
  apply IH; [ by apply insort_Forall | done ].
Qed.
End raising_sort.

Lemma Sorted_weaken {A} (R R' : relation A) (P : A → Prop) l :
  (∀ a b, P a → P b → R a b → R' a b) →
  Forall P l → Sorted R l → Sorted R' l.
Proof.
  intros HR HP Hs. induction Hs as [ | a l Hs IH Hhd ]; [ constructor | ].
  apply Forall_cons in HP as [Ha HP].
  constructor; [ by apply IH | ].
  destruct Hhd as [ | b l Hab ]; constructor.
  apply Forall_cons in HP as [Hb _]. by apply HR.
Qed.

(** When every chunk has a number for its key, sorting does not raise, and the
    chunks come out as a stable sort on their offsets. *)
Lemma sorted_by_key_numeric (chunks : list json) :
  Forall (fun c => is_Some (start_of c)) chunks →
  ∃ sorted_chunks,
    sorted_by_key chunk_key py_lt chunks = Some sorted_chunks
    ∧ sorted_chunks ≡ₚ chunks
    ∧ Sorted starts_le sorted_chunks.
Proof.
  intros Hall.
  assert (Hkeys : ∃ ks, mapM chunk_key chunks = Some ks
                        ∧ Forall2 (fun c k => chunk_key c = Some k) chunks ks).
  { destruct (mapM chunk_key chunks) as [ks|] eqn:E.
    - exists ks. split; [ done | ]. by apply mapM_Some_1.
    - apply mapM_None_1, Exists_exists in E as (c & Hc & Hk).
      rewrite Forall_forall in Hall. destruct (Hall c Hc) as [x Hx].
      unfold start_of in Hx. rewrite Hk in Hx. done. }
  destruct Hkeys as (ks & Hks & Hrel).
  set (P := fun p : json * json => chunk_key p.2 = Some p.1 ∧ is_Some (num_of p.1)).
  set (ltb := fun a b : json * json => chunk_ltb a.2 b.2).
  assert (HP : Forall P (zip ks chunks)).
  { clear Hks. induction Hrel as [ | c k chunks ks Hk Hrel IH ]; [ constructor | ].
    apply Forall_cons in Hall as [[x Hx] Hall]. simpl.
    constructor; [ | by apply IH ].
    split; [ done | ]. unfold start_of in Hx. rewrite Hk in Hx. simpl in Hx. eauto. }
  assert (Hpure : ∀ a b, P a → P b → py_lt a.1 b.1 = Some (ltb a b)).
  { intros a b [Ka [x Hx]] [Kb [y Hy]]. rewrite (py_lt_num _ _ x y) by done.
    unfold ltb, chunk_ltb, start_of. rewrite Ka, Kb. simpl. by rewrite Hx, Hy. }
  unfold sorted_by_key. rewrite Hks.
  rewrite (sort_raising_pure (fun a b : json * json => py_lt a.1 b.1) ltb P Hpure)
    by (done || constructor).
  fold (stable_sort ltb (zip ks chunks)).
  eexists. split; [ done | ].
  assert (Hlen : length chunks = length ks) by (by eapply Forall2_length).
  assert (Hperm : (stable_sort ltb (zip ks chunks)).*2 ≡ₚ chunks).
  { rewrite stable_sort_Permutation. rewrite snd_zip by lia. done. }
  split; [ done | ].
  apply (Sorted_weaken
           (fun a b => match start_of a, start_of b with
                       | Some x, Some y => (x <= y)%Q
                       | _, _ => True
                       end)
           starts_le (fun c => is_Some (start_of c))).
  - intros a b [x Hx] [y Hy]. unfold starts_le. by rewrite Hx, Hy.
  - by rewrite Hperm.
  - apply (Sorted_fmap _ (fun a b : json * json =>
                            match start_of a.2, start_of b.2 with
                            | Some x, Some y => (x <= y)%Q
                            | _, _ => True
                            end)); [ done | ].
    apply stable_sort_Sorted.
    + intros a b. unfold ltb, chunk_ltb.
      destruct (start_of a.2) as [x|], (start_of b.2) as [y|]; try done.
      intros Hlt%negb_true_iff.
      apply Qlt_le_weak, Qnot_le_lt. intros Hle%Qle_bool_iff. congruence.
    + intros a b. unfold ltb, chunk_ltb.
      destruct (start_of a.2) as [x|], (start_of b.2) as [y|]; try done.
      intros Hge%negb_false_iff. by apply Qle_bool_iff.
Qed.

Lemma order_chunks_numeric list_sort (chunks : list json) :
  Forall (fun c => is_Some (start_of c)) chunks →
  order_chunks list_sort chunks ≡ₚ chunks
  ∧ Sorted starts_le (order_chunks list_sort chunks).
Proof.
  intros Hall.
  destruct (sorted_by_key_numeric chunks Hall) as (sorted & E & Hperm & Hsorted).
  unfold order_chunks. by rewrite sorted_chunks_numeric, E.
Qed.

Lemma order_chunks_fallback list_sort (chunks : list json) :
  Exists (fun c => chunk_key c = None) chunks → order_chunks list_sort chunks = chunks.
Proof.
  intros Hex. unfold order_chunks, sorted_chunks.
  by rewrite (mapM_None_2 chunk_key chunks Hex).
Qed.

(** *** The loop over the chunks *)

Lemma append_assoc (a b c : string) : (a +:+ b) +:+ c = a +:+ (b +:+ c).
Proof.
  induction a as [ | x a IH ]; [ done | ].
  change (String x ((a +:+ b) +:+ c) = String x (a +:+ (b +:+ c))). by f_equal.
Qed.

Lemma append_empty_r (a : string) : a +:+ EmptyString = a.
Proof.
  induction a as [ | x a IH ]; [ done | ].
  change (String x (a +:+ EmptyString) = String x a). by f_equal.
Qed.

Lemma for_each_app {S A} (body : S → A → option S) l1 l2 st :
  for_each body st (l1 ++ l2) = st' ← for_each body st l1; for_each body st' l2.
Proof.
  revert st. induction l1 as [ | x l1 IH ]; intros st; simpl; [ done | ].
  destruct (body st x); simpl; [ apply IH | done ].
Qed.

Lemma append_chunk_no_key code d :
  dict_get "chunk" d = None → append_chunk code (JDict d) = Some code.
Proof.
  intros Hd. unfold append_chunk. simpl. rewrite Hd.
  rewrite bool_decide_eq_false_2; [ done | ]. by intros [? ?].
Qed.

Lemma append_chunk_payload code d s :
  dict_get "chunk" d = Some (JStr s) → append_chunk code (JDict d) = Some (code +:+ s).
Proof.
  intros Hd. unfold append_chunk. simpl. rewrite Hd.
  rewrite bool_decide_eq_true_2; [ done | ]. eauto.
Qed.

Lemma concat_chunks_ok chunks : ∀ code,
  Forall chunk_ok chunks →
  for_each append_chunk code chunks
  = Some (code +:+ concat_strings (omap payload_of chunks)).
Proof.
  induction chunks as [ | c chunks IH ]; intros code Hok; csimpl.
  - by rewrite append_empty_r.
  - apply Forall_cons in Hok as [(d & -> & Hd) Hok].
    destruct Hd as [ Hd | [s Hd] ].
    + rewrite append_chunk_no_key by done. simpl. rewrite Hd. by apply IH.
    + rewrite (append_chunk_payload _ _ s) by done. simpl. rewrite Hd. simpl.
      rewrite IH by done. unfold concat_strings. simpl. by rewrite append_assoc.
Qed.

Lemma recover_chunks_ok list_sort chunks :
  Forall chunk_ok chunks →
  recover_chunks list_sort chunks
  = Some (concat_strings (omap payload_of (order_chunks list_sort chunks))).
Proof.
  intros Hok. unfold recover_chunks. rewrite concat_chunks_ok; [ done | ].
  by rewrite order_chunks_perm.
Qed.

(** *** Claims about the recovery *)

(** The sort of CPython on the keys 2, NaN, 1: no comparison with the NaN is
    true, the list counts as ascending and is returned as it is. *)
Definition example_sort (ks : list json) : option (list nat) :=
  Some (seq 0 (length ks)).

(** An output file that can be opened and written. *)
Definition example_output : output := Output (fun _ => true) (fun _ _ => true).

(** C4 (as amended): on a snapshot whose ["documentChunks"] is a list, both
    scripts produce [recover_chunks] of it and raise nothing;
    [extract_file.py] writes that text, when one is produced, to its output
    file. When every chunk has a finite number for its offset, where a chunk
    with no ["range"] or a range with no ["start"] counts as offset 0, the
    chunks are read in ascending order of offset; the original order is used
    only when sorting raises, as it does when the key of a chunk cannot be
    read (a chunk that is not an object, or whose ["range"] is not one). When
    the chunks are objects with string payloads the result is the
    concatenation of the payloads in the order read, and the chunks ["world"]
    at 5 and ["hello "] at 0 give ["hello world"]. *)
Theorem snapshot_reconstruction (list_sort : list json → option (list nat))
    (chunks : list json) :
  (∀ json_loads py_repr out raw d,
     json_loads raw = Parsed (JDict d) →
     dict_get "documentChunks" d = Some (JList chunks) →
     extract_swift_from_json list_sort json_loads (Some raw)
     = recover_chunks list_sort chunks
     ∧ extract_file list_sort json_loads py_repr out (Some raw)
       = match recover_chunks list_sort chunks with
         | Some text => write_file out output_file text
         | None => Untouched
         end)
  ∧ (Forall (fun c => is_Some (start_of c)) chunks →
       order_chunks list_sort chunks ≡ₚ chunks
       ∧ Sorted starts_le (order_chunks list_sort chunks))
  ∧ (∀ d, dict_get "range" d = None → start_of (JDict d) = Some (inject_Z 0))
  ∧ (∀ d r, dict_get "range" d = Some (JDict r) → dict_get "start" r = None →
       start_of (JDict d) = Some (inject_Z 0))
  ∧ (Exists (fun c => chunk_key c = None) chunks → order_chunks list_sort chunks = chunks)
  ∧ (Forall chunk_ok chunks →
       recover_chunks list_sort chunks
       = Some (concat_strings (omap payload_of (order_chunks list_sort chunks))))
  ∧ recover_chunks list_sort
      [ JDict [("range", JDict [("start", JInt 5)]); ("chunk", JStr "world")];
        JDict [("range", JDict [("start", JInt 0)]); ("chunk", JStr "hello ")] ]
    = Some "hello world".
Proof.
  split; [ | split; [ | split; [ | split; [ | split; [ | split ] ] ] ] ].
  - intros json_loads py_repr out raw d Hraw Hd.
    unfold extract_swift_from_json, extract_file, swift_code_of. simpl.
    rewrite Hraw. simpl. rewrite Hd. split; [ | done ].
    by destruct (recover_chunks list_sort chunks).
  - apply order_chunks_numeric.
  - intros d Hd. unfold start_of, chunk_key. simpl. by rewrite Hd.
  - intros d r Hd Hr. unfold start_of, chunk_key. simpl. rewrite Hd. simpl. by rewrite Hr.
  - apply order_chunks_fallback.
  - apply recover_chunks_ok.
  - vm_compute. reflexivity.
Qed.

(** C4 as stated fails: the second chunk has no offset metadata, yet the
    chunks are not read in their original order (which would give
    ["worldhello "]); the chunk counts as offset 0 and is read first. And
    with a NaN for an offset the chunks are neither sorted nor read in their
    original order because sorting raised: CPython's sort returns the list
    as it is. *)
Example missing_offset_still_sorted :
  recover_chunks example_sort
    [ JDict [("range", JDict [("start", JInt 5)]); ("chunk", JStr "world")];
      JDict [("chunk", JStr "hello ")] ]
  = Some "hello world"
  ∧ for_each append_chunk EmptyString
      [ JDict [("range", JDict [("start", JInt 5)]); ("chunk", JStr "world")];
        JDict [("chunk", JStr "hello ")] ]
    = Some "worldhello "
  ∧ sorted_chunks example_sort
      [ JDict [("range", JDict [("start", JInt 2)]); ("chunk", JStr "c")];
        JDict [("range", JDict [("start", JFloat NaN)]); ("chunk", JStr "a")];
        JDict [("range", JDict [("start", JInt 1)]); ("chunk", JStr "b")] ]
    = Some
      [ JDict [("range", JDict [("start", JInt 2)]); ("chunk", JStr "c")];
        JDict [("range", JDict [("start", JFloat NaN)]); ("chunk", JStr "a")];
        JDict [("range", JDict [("start", JInt 1)]); ("chunk", JStr "b")] ].
Proof. repeat split; vm_compute; reflexivity. Qed.

(** C5 (as amended): recovery raises nothing. A snapshot that parses to a
    bare string is recovered verbatim by [extract_swift_from_json], and
    [extract_file.py] writes that string to its output file, which holds it
    when the file can be opened and written. When [json.loads] raises
    [JSONDecodeError], [extract_swift_from_json] returns [None], no text, and
    [extract_file.py] writes the raw data unchanged unless the data starts
    and ends with a double quote, in which case it leaves the output file
    alone. When [json.loads] raises another exception, or the file cannot be
    read, the one returns [None] and the other leaves the output file
    alone. *)
Theorem snapshot_recovery_outcomes (list_sort : list json → option (list nat))
    (json_loads : string → parse_result) (py_repr : json → option string)
    (out : output) (raw : string) :
  (∀ s, json_loads raw = Parsed (JStr s) →
     extract_swift_from_json list_sort json_loads (Some raw) = Some s
     ∧ extract_file list_sort json_loads py_repr out (Some raw)
       = write_file out output_file s
     ∧ (can_open out output_file = true → can_write out output_file s = true →
        extract_file list_sort json_loads py_repr out (Some raw) = Written s))
  ∧ (json_loads raw = DecodeError →
     extract_swift_from_json list_sort json_loads (Some raw) = None
     ∧ extract_file list_sort json_loads py_repr out (Some raw)
       = if starts_with quote raw && ends_with quote raw then Untouched
         else write_file out output_file raw)
  ∧ (json_loads raw = OtherError →
     extract_swift_from_json list_sort json_loads (Some raw) = None
     ∧ extract_file list_sort json_loads py_repr out (Some raw) = Untouched)
  ∧ extract_swift_from_json list_sort json_loads None = None
  ∧ extract_file list_sort json_loads py_repr out None = Untouched.
Proof.
  split; [ | split; [ | split; [ | split ] ] ]; try done.
  - intros s Hs. unfold extract_swift_from_json, extract_file. simpl.
    rewrite Hs. simpl. split; [ done | ]. split; [ done | ].
    intros Ho Hw. unfold write_file. by rewrite Ho, Hw.
  - intros Hnone. unfold extract_swift_from_json, extract_file. simpl.
    rewrite Hnone. done.
  - intros Hother. unfold extract_swift_from_json, extract_file. simpl.
    by rewrite Hother.
Qed.

(** C5 as stated fails: on the text [not json], which [json.loads] rejects,
    [extract_swift_from_json] returns [None] and not the raw text; and on a
    text that is one double quote, which [json.loads] rejects too,
    [extract_file.py] writes nothing. *)
Example unparsable_input_not_recovered :
  extract_swift_from_json example_sort (fun _ => DecodeError) (Some "not json") = None
  ∧ extract_file example_sort (fun _ => DecodeError) (fun _ => None) example_output
      (Some quote) = Untouched.
Proof. split; vm_compute; reflexivity. Qed.

(** C10 (as amended): when the chunks are objects whose payloads are strings,
    the text is the concatenation of the payloads of exactly the chunks that
    have the ["chunk"] key, in the order the chunks are read; and a chunk
    that is an object without the key can be dropped from the loop without
    changing what it produces. *)
Theorem chunk_without_payload_skipped (list_sort : list json → option (list nat))
    (chunks : list json) :
  Forall chunk_ok chunks →
  recover_chunks list_sort chunks
  = Some (concat_strings (omap payload_of (order_chunks list_sort chunks)))
  ∧ (∀ before after d code, dict_get "chunk" d = None →
       for_each append_chunk code (before ++ JDict d :: after)
       = for_each append_chunk code (before ++ after)).
Proof.
  intros Hok. split; [ by apply recover_chunks_ok | ].
  intros before after d code Hd. rewrite !for_each_app.
  destruct (for_each append_chunk code before) as [code'|]; simpl; [ | done ].
  by rewrite append_chunk_no_key.
Qed.

Lemma chunk_without_payload_skipped_witness :
  recover_chunks example_sort
    [ JDict [("range", JDict [("start", JInt 5)]); ("chunk", JStr "world")];
      JDict [("range", JDict [("start", JInt 3)])];
      JDict [("range", JDict [("start", JInt 0)]); ("chunk", JStr "hello ")] ]
  = Some (concat_strings (omap payload_of (order_chunks example_sort
      [ JDict [("range", JDict [("start", JInt 5)]); ("chunk", JStr "world")];
        JDict [("range", JDict [("start", JInt 3)])];
        JDict [("range", JDict [("start", JInt 0)]); ("chunk", JStr "hello ")] ])))
  ∧ (∀ before after d code, dict_get "chunk" d = None →
       for_each append_chunk code (before ++ JDict d :: after)
       = for_each append_chunk code (before ++ after)).
Proof.
  apply chunk_without_payload_skipped.
  repeat constructor; eexists; (split; [ reflexivity | ]); simpl; eauto.
Defined.

(** C10 as stated fails for a chunk that is not an object: [null] lacks the
    ["chunk"] key, and the test ["chunk" in chunk] raises on it, here and
    wherever it is read; no text is recovered, not even the payload of the
    chunk before it. *)
Example chunk_null_not_skipped :
  has_chunk JNull = None
  ∧ for_each append_chunk EmptyString [ JDict [("chunk", JStr "a")]; JNull ] = None
  ∧ recover_chunks example_sort [ JDict [("chunk", JStr "a")]; JNull ] = None
  ∧ extract_swift_from_json example_sort
      (fun _ => Parsed (JDict [("documentChunks",
                                 JList [ JDict [("chunk", JStr "a")]; JNull ])]))
      (Some "snapshot") = None.
Proof. repeat split; vm_compute; reflexivity. Qed.

(** *** Further properties of the recovery *)

(** X12: Whatever the chunks are, the loop reads each of them exactly once: the
    order it reads them in, sorted or not, is a rearrangement of the list, so
    no chunk is dropped and none is read twice. *)
Theorem order_chunks_Permutation (list_sort : list json → option (list nat))
    (chunks : list json) :
  order_chunks list_sort chunks ≡ₚ chunks
  ∧ length (order_chunks list_sort chunks) = length chunks
  ∧ ∀ c, c ∈ order_chunks list_sort chunks ↔ c ∈ chunks.
Proof.
  pose proof (order_chunks_perm list_sort chunks) as Hperm.
  split; [ done | ]. split; [ by rewrite Hperm | ].
  intros c. by rewrite Hperm.
Qed.

Lemma insort_fmap {A B} (g : A → B) (ltb' : A → A → bool) (ltb : B → B → bool) x l :
  (∀ a b, ltb' a b = ltb (g a) (g b)) →
  g <$> insort ltb' x l = insort ltb (g x) (g <$> l).
Proof.
  intros Hg. induction l as [ | y l IH ]; [ done | ].
  rewrite fmap_cons. cbn [insort]. rewrite Hg.
  destruct (ltb (g x) (g y)); rewrite !fmap_cons; [ done | by f_equal ].
Qed.

Lemma stable_sort_fmap {A B} (g : A → B) (ltb' : A → A → bool) (ltb : B → B → bool) l :
  (∀ a b, ltb' a b = ltb (g a) (g b)) →
  g <$> stable_sort ltb' l = stable_sort ltb (g <$> l).
Proof.
  intros Hg. unfold stable_sort.
  assert (H : ∀ acc, g <$> foldl (fun acc x => insort ltb' x acc) acc l
                     = foldl (fun acc x => insort ltb x acc) (g <$> acc) (g <$> l)).
  { induction l as [ | x l IH ]; intros acc; simpl; [ done | ].
    rewrite IH. by rewrite (insort_fmap g ltb' ltb). }
  apply (H []).
Qed.

Lemma insort_last {A} (ltb : A → A → bool) x l :
  Forall (fun y => ltb x y = false) l → insort ltb x l = l ++ [x].
Proof.
  induction 1 as [ | y l Hy Hl IH ]; simpl; [ done | ]. by rewrite Hy, IH.
Qed.

Lemma stable_sort_ordered {A} (ltb : A → A → bool) l : ∀ acc,
  StronglySorted (fun a b => ltb b a = false) (acc ++ l) →
  foldl (fun acc x => insort ltb x acc) acc l = acc ++ l.
Proof.
  induction l as [ | x l IH ]; intros acc Hs; simpl.
  - by rewrite app_nil_r.
  - rewrite insort_last.
    + rewrite IH; rewrite <- app_assoc; done.
    + apply StronglySorted_app in Hs as (Hcross & _ & _).
      apply Forall_forall. intros y Hy. apply Hcross; [ done | by left ].
Qed.

(** With numbers for all the keys, sorting is the stable sort on offsets. *)
Lemma sorted_by_key_stable (chunks : list json) :
  Forall (fun c => is_Some (start_of c)) chunks →
  sorted_by_key chunk_key py_lt chunks = Some (stable_sort chunk_ltb chunks).
Proof.
  intros Hall.
  assert (Hkeys : ∃ ks, mapM chunk_key chunks = Some ks
                        ∧ Forall2 (fun c k => chunk_key c = Some k) chunks ks).
  { destruct (mapM chunk_key chunks) as [ks|] eqn:E.
    - exists ks. split; [ done | ]. by apply mapM_Some_1.
    - apply mapM_None_1, Exists_exists in E as (c & Hc & Hk).
      rewrite Forall_forall in Hall. destruct (Hall c Hc) as [x Hx].
      unfold start_of in Hx. rewrite Hk in Hx. done. }
  destruct Hkeys as (ks & Hks & Hrel).
  set (P := fun p : json * json => chunk_key p.2 = Some p.1 ∧ is_Some (num_of p.1)).
  set (ltb := fun a b : json * json => chunk_ltb a.2 b.2).
  assert (HP : Forall P (zip ks chunks)).
  { clear Hks. induction Hrel as [ | c k chunks ks Hk Hrel IH ]; [ constructor | ].
    apply Forall_cons in Hall as [[x Hx] Hall]. simpl.
    constructor; [ | by apply IH ].
    split; [ done | ]. unfold start_of in Hx. rewrite Hk in Hx. simpl in Hx. eauto. }
  assert (Hpure : ∀ a b, P a → P b → py_lt a.1 b.1 = Some (ltb a b)).
  { intros a b [Ka [x Hx]] [Kb [y Hy]]. rewrite (py_lt_num _ _ x y) by done.
    unfold ltb, chunk_ltb, start_of. rewrite Ka, Kb. simpl. by rewrite Hx, Hy. }
  unfold sorted_by_key. rewrite Hks.
  rewrite (sort_raising_pure (fun a b : json * json => py_lt a.1 b.1) ltb P Hpure)
    by (done || constructor).
  fold (stable_sort ltb (zip ks chunks)).
  assert (Hlen : length chunks = length ks) by (by eapply Forall2_length).
  rewrite (stable_sort_fmap snd ltb chunk_ltb) by done.
  by rewrite snd_zip by lia.
Qed.

Lemma StronglySorted_weaken {A} (R R' : relation A) l :
  (∀ a b, R a b → R' a b) → StronglySorted R l → StronglySorted R' l.
Proof.
  intros HR. induction 1 as [ | a l Hs IH Hall ]; constructor; [ done | ].
  eapply Forall_impl; [ exact Hall | ]. intros b. apply HR.
Qed.

Lemma starts_le_trans a b c : starts_le a b → starts_le b c → starts_le a c.
Proof.
  unfold starts_le.
  destruct (start_of a) as [x|], (start_of b) as [y|], (start_of c) as [z|]; try done.
  apply Qle_trans.
Qed.

(** X13: Chunks that already come in ascending order of offset are read in the
    order they have, and sorting a second time changes nothing. *)
Theorem order_chunks_of_ordered (list_sort : list json → option (list nat))
    (chunks : list json) :
  Forall (fun c => is_Some (start_of c)) chunks →
  (Sorted starts_le chunks → order_chunks list_sort chunks = chunks)
  ∧ order_chunks list_sort (order_chunks list_sort chunks) = order_chunks list_sort chunks.
Proof.
  assert (Hfix : ∀ cs, Forall (fun c => is_Some (start_of c)) cs →
            Sorted starts_le cs → order_chunks list_sort cs = cs).
  { intros cs Hall Hs. unfold order_chunks.
    rewrite sorted_chunks_numeric, sorted_by_key_stable by done.
    simpl. unfold stable_sort. rewrite stable_sort_ordered; [ done | ]. simpl.
    apply Sorted_StronglySorted in Hs; [ | intros a b c; apply starts_le_trans ].
    eapply StronglySorted_weaken; [ | exact Hs ].
    intros a b. unfold starts_le, chunk_ltb.
    destruct (start_of a) as [x|], (start_of b) as [y|]; try done.
    intros Hle%Qle_bool_iff. by rewrite Hle. }
  intros Hall. split; [ by apply Hfix | ].
  destruct (order_chunks_numeric list_sort chunks Hall) as [Hperm Hsorted].
  apply Hfix; [ by rewrite Hperm | done ].
Qed.

Lemma order_chunks_of_ordered_witness :
  (Sorted starts_le
     [ JDict [("chunk", JStr "a")];
       JDict [("range", JDict [("start", JInt 4)]); ("chunk", JStr "b")] ] →
   order_chunks example_sort
     [ JDict [("chunk", JStr "a")];
       JDict [("range", JDict [("start", JInt 4)]); ("chunk", JStr "b")] ]
   = [ JDict [("chunk", JStr "a")];
       JDict [("range", JDict [("start", JInt 4)]); ("chunk", JStr "b")] ])
  ∧ order_chunks example_sort (order_chunks example_sort
      [ JDict [("chunk", JStr "a")];
        JDict [("range", JDict [("start", JInt 4)]); ("chunk", JStr "b")] ])
    = order_chunks example_sort
      [ JDict [("chunk", JStr "a")];
        JDict [("range", JDict [("start", JInt 4)]); ("chunk", JStr "b")] ].
Proof.
  apply order_chunks_of_ordered.
  repeat constructor; simpl; eauto.
Defined.

(** A chunk the loop cannot read: a number, a boolean or null; a string that
    contains ["chunk"] or a list that has ["chunk"] as an element; or an
    object whose ["chunk"] is not a string. *)
Definition unreadable_chunk (c : json) : Prop :=
  match c with
  | JNull | JBool _ | JInt _ | JFloat _ => True
  | JStr s => contains "chunk" s = true
  | JList l => existsb (py_eq (JStr "chunk")) l = true
  | JDict d => ∃ v, dict_get "chunk" d = Some v ∧ ∀ s, v ≠ JStr s
  end.

Lemma append_chunk_unreadable c code : unreadable_chunk c → append_chunk code c = None.
Proof.
  destruct c as [ | b | z | x | s | l | d ]; simpl; try done.
  - intros Hs. unfold append_chunk. simpl. by rewrite Hs.
  - intros Hl. unfold append_chunk. simpl. by rewrite Hl.
  - intros (v & Hv & Hns). unfold append_chunk. simpl. rewrite Hv.
    rewrite bool_decide_eq_true_2 by eauto. simpl.
    destruct v; try done. by destruct (Hns s).
Qed.

Lemma for_each_raises {S A} (body : S → A → option S) (l : list A) x :
  x ∈ l → (∀ st, body st x = None) → ∀ st, for_each body st l = None.
Proof.
  intros Hin Hx. induction l as [ | y l IH ]; intros st; [ by apply elem_of_nil in Hin | ].
  simpl. apply elem_of_cons in Hin as [ <- | Hin ].
  - by rewrite Hx.
  - destruct (body st y); simpl; [ by apply IH | done ].
Qed.

(** X14: One chunk the loop cannot read spoils the whole snapshot: wherever it is
    in the list, no text is recovered, not even that of the chunks before
    it. *)
Theorem unreadable_chunk_loses_snapshot (list_sort : list json → option (list nat))
    (chunks : list json) (c : json) :
  c ∈ chunks → unreadable_chunk c →
  recover_chunks list_sort chunks = None
  ∧ ∀ json_loads py_repr out raw d,
      json_loads raw = Parsed (JDict d) →
      dict_get "documentChunks" d = Some (JList chunks) →
      extract_swift_from_json list_sort json_loads (Some raw) = None
      ∧ extract_file list_sort json_loads py_repr out (Some raw) = Untouched.
Proof.
  intros Hin Hbad.
  assert (Hnone : recover_chunks list_sort chunks = None).
  { unfold recover_chunks. apply (for_each_raises _ _ c).
    - by rewrite order_chunks_perm.
    - intros code. by apply append_chunk_unreadable. }
  split; [ done | ]. intros json_loads py_repr out raw d Hraw Hd.
  unfold extract_swift_from_json, extract_file, swift_code_of. simpl.
  rewrite Hraw. simpl. rewrite Hd, Hnone. done.
Qed.

Lemma unreadable_chunk_loses_snapshot_witness :
  recover_chunks example_sort
    [ JDict [("range", JDict [("start", JInt 0)]); ("chunk", JStr "hello ")];
      JDict [("range", JDict [("start", JInt 6)]); ("chunk", JInt 7)] ] = None
  ∧ ∀ json_loads py_repr out raw d,
      json_loads raw = Parsed (JDict d) →
      dict_get "documentChunks" d
      = Some (JList
          [ JDict [("range", JDict [("start", JInt 0)]); ("chunk", JStr "hello ")];
            JDict [("range", JDict [("start", JInt 6)]); ("chunk", JInt 7)] ]) →
      extract_swift_from_json example_sort json_loads (Some raw) = None
      ∧ extract_file example_sort json_loads py_repr out (Some raw) = Untouched.
Proof.
  apply (unreadable_chunk_loses_snapshot _ _
           (JDict [("range", JDict [("start", JInt 6)]); ("chunk", JInt 7)])).
  - set_solver.
  - simpl. exists (JInt 7). split; [ reflexivity | done ].
Defined.

(** X15: Whenever [extract_swift_from_json] recovers a text from a file,
    [extract_file.py] writes that same text for it: its output file holds the
    text when it can be opened and written, is left empty when the writing
    raises, and is left alone when it cannot be opened. *)
Theorem extract_file_agrees (list_sort : list json → option (list nat))
    (json_loads : string → parse_result) (py_repr : json → option string)
    (out : output) (file : option string) (text : string) :
  extract_swift_from_json list_sort json_loads file = Some text →
  extract_file list_sort json_loads py_repr out file = write_file out output_file text
  ∧ (extract_file list_sort json_loads py_repr out file = Written text
     ↔ can_open out output_file = true ∧ can_write out output_file text = true)
  ∧ (extract_file list_sort json_loads py_repr out file = Truncated
     ↔ can_open out output_file = true ∧ can_write out output_file text = false)
  ∧ (extract_file list_sort json_loads py_repr out file = Untouched
     ↔ can_open out output_file = false).
Proof.
  intros Hrec.
  assert (E : extract_file list_sort json_loads py_repr out file
              = write_file out output_file text).
  { revert Hrec. unfold extract_swift_from_json, extract_file, swift_code_of.
    destruct file as [raw|]; simpl; [ | done ].
    destruct (json_loads raw) as [data| | ]; simpl; [ | done | done ].
    destruct data as [ | b | z | x | s | l | d ]; simpl; try done.
    - by intros [= ->].
    - destruct (dict_get "documentChunks" d) as [[ | | | | | chunks | ]|]; simpl; try done.
      destruct (recover_chunks list_sort chunks); simpl; [ by intros [= ->] | done ]. }
  split; [ exact E | ]. rewrite E. unfold write_file.
  destruct (can_open out output_file), (can_write out output_file text); naive_solver.
Qed.

Lemma extract_file_agrees_witness :
  extract_file example_sort (fun _ => Parsed (JStr "import SwiftUI")) (fun _ => None)
    example_output (Some "snapshot") = Written "import SwiftUI".
Proof.
  destruct (extract_file_agrees example_sort (fun _ => Parsed (JStr "import SwiftUI"))
              (fun _ => None) example_output (Some "snapshot") "import SwiftUI" eq_refl)
    as (E & _).
  exact E.
Defined.

(** *** Where a recovered file goes, and from which backup ([extract_files.py]) *)

Definition output_base : string := "/Users/melfranklin/DontpullupFix".

(** The [subdir] that [get_output_path] picks for a file name. *)
Definition get_output_subdir (filename : string) : string :=
  if existsb (fun x => contains x filename) ["ViewModel"; "Model"] then "ViewModels"
  else if contains "View" filename || contains "Screen" filename
          || contains "TabView" filename then "Views"
  else if contains "App" filename || contains "AppDelegate" filename then "App"
  else if contains "Auth" filename && negb (contains "View" filename) then "Authentication"
  else if contains "Manager" filename || contains "Service" filename
          || contains "State" filename then "Services"
  else "Utils".

(** [get_output_path]: [os.path.join(output_base, subdir, filename)]. *)
Definition get_output_path (filename : string) : string :=
  Inventory.path_join (Inventory.path_join output_base (get_output_subdir filename))
                      filename.

(** What [find_latest_backup] reads of the machine: the paths [glob.glob]
    yields in a backup directory for the pattern [filename.*json], and the
    modification time of a path. *)
Record backups := Backups {
  glob_backups : string -> string -> list string;
  getmtime : string -> Z
}.

(** [find_latest_backup], with [backup_dirs] as an argument. *)
Fixpoint find_latest_backup (w : backups) (backup_dirs : list string)
    (filename : string) : option string :=
  match backup_dirs with
  | [] => None
  | backup_dir :: rest =>
      match glob_backups w backup_dir filename with
      | [] => find_latest_backup w rest filename
      | matches =>
          head (sorted (fun a b => getmtime w a <? getmtime w b) true matches)
      end
  end.

(** How the loop over [critical_files] ends: it runs to its end, or a write
    raises and the script stops there, leaving the file it was writing
    untouched or empty. Either way some files were written, in this order. *)
Inductive run :=
  | Completed (written : list (string * string))
  | Aborted (written : list (string * string)) (path : string) (effect : file_effect).

Definition written_files (r : run) : list (string * string) :=
  match r with Completed l | Aborted l _ _ => l end.

Definition and_before (e : string * string) (r : run) : run :=
  match r with
  | Completed l => Completed (e :: l)
  | Aborted l path effect => Aborted (e :: l) path effect
  end.

Section Main.
Variable list_sort : list json -> option (list nat).
Variable json_loads : string -> parse_result.
Variable w : backups.
(** The contents of a file, [None] when it cannot be opened or read. *)
Variable read_file : string -> option string.
Variable out : output.
Variable backup_dirs : list string.

(** Body of the loop over [critical_files] up to the writing: the path and
    the text to write for a file name, [None] when nothing is to be written
    for it. An empty text is false in [if swift_code:] and is not written. *)
Definition recover_file (filename : string) : option (string * string) :=
  backup_file ← find_latest_backup w backup_dirs filename;
  swift_code ← extract_swift_from_json list_sort json_loads (read_file backup_file);
  if decide (swift_code = EmptyString) then None
  else Some (get_output_path filename, swift_code).

(** The loop over [critical_files]. The writing is in no [try]: when it
    raises, the script ends and the names after it are not looked at. *)
Fixpoint recover_critical_files (critical_files : list string) : run :=
  match critical_files with
  | [] => Completed []
  | filename :: rest =>
      match recover_file filename with
      | None => recover_critical_files rest
      | Some (output_path, swift_code) =>
          match write_file out output_path swift_code with
          | Written _ => and_before (output_path, swift_code) (recover_critical_files rest)
          | effect => Aborted [] output_path effect
          end
      end
  end.
End Main.

Lemma append_cons c (a b : string) : String c a +:+ b = String c (a +:+ b).
Proof. reflexivity. Qed.

Lemma starts_with_spec pre s : starts_with pre s = true ↔ ∃ r, s = pre +:+ r.
Proof.
  revert s. induction pre as [ | a pre IH ]; intros s; simpl.
  - split; [ by exists s | done ].
  - destruct s as [ | b s ].
    + split; [ done | ]. intros [r Hr]. by rewrite append_cons in Hr.
    + rewrite andb_true_iff, Ascii.eqb_eq, IH. split.
      * intros [-> [r ->]]. by exists r.
      * intros [r Hr]. rewrite append_cons in Hr. injection Hr as -> ->. eauto.
Qed.

Lemma contains_spec sub s : contains sub s = true ↔ ∃ l r, s = l +:+ sub +:+ r.
Proof.
  split.
  - induction s as [ | c s IH ]; simpl.
    + rewrite orb_false_r. intros [r Hr]%starts_with_spec. by exists EmptyString, r.
    + intros [ [r Hr]%starts_with_spec | (l & r & ->)%IH ]%orb_true_iff.
      * by exists EmptyString, r.
      * by exists (String c l), r.
  - intros (l & r & ->). induction l as [ | c l IH ].
    + assert (Hsw : starts_with sub (sub +:+ r) = true) by (apply starts_with_spec; eauto).
      change (EmptyString +:+ sub +:+ r) with (sub +:+ r).
      destruct (sub +:+ r); simpl in *; by rewrite Hsw.
    + rewrite append_cons. simpl. rewrite IH. apply orb_true_r.
Qed.

Lemma contains_part p q s :
  contains (p +:+ q) s = true → contains p s = true ∧ contains q s = true.
Proof.
  intros (l & r & ->)%contains_spec. split; apply contains_spec.
  - exists l, (q +:+ r). by rewrite append_assoc.
  - exists (l +:+ p), r. by rewrite !append_assoc.
Qed.

Lemma output_path_under (subdir filename : string) :
  starts_with "/" filename = false →
  subdir ∈ ["ViewModels"; "Views"; "App"; "Authentication"; "Services"; "Utils"] →
  Inventory.path_join (Inventory.path_join output_base subdir) filename
  = (output_base +:+ "/" +:+ subdir) +:+ "/" +:+ filename.
Proof.
  intros Hsw Hin.
  assert (Hbase : Inventory.path_join output_base subdir = output_base +:+ "/" +:+ subdir
                  ∧ output_base +:+ "/" +:+ subdir ≠ EmptyString
                  ∧ ends_with "/" (output_base +:+ "/" +:+ subdir) = false).
  { repeat (apply elem_of_cons in Hin as [ -> | Hin ]);
      [ repeat split; (vm_compute; (reflexivity || discriminate)) .. | ].
    by apply elem_of_nil in Hin. }
  destruct Hbase as (-> & Hne & Hend).
  unfold Inventory.path_join. rewrite Hsw, Hend. by rewrite decide_False.
Qed.

(** X16: [get_output_path] by its effective rules: the tests for ["ViewModel"],
    ["TabView"], ["AppDelegate"] and for the absence of ["View"] never decide,
    since ["Model"], ["View"] and ["App"] are tested with or before them; no
    file goes to [Models], a directory the script creates; and the path is
    the file name under the directory picked, unless the name is absolute, in
    which case it is the name alone. *)
Theorem get_output_path_rules (filename : string) :
  get_output_subdir filename
  = (if contains "Model" filename then "ViewModels"
     else if contains "View" filename || contains "Screen" filename then "Views"
     else if contains "App" filename then "App"
     else if contains "Auth" filename then "Authentication"
     else if contains "Manager" filename || contains "Service" filename
             || contains "State" filename then "Services"
     else "Utils")
  ∧ get_output_subdir filename ≠ "Models"
  ∧ get_output_path filename
    = (if starts_with "/" filename then filename
       else (output_base +:+ "/" +:+ get_output_subdir filename) +:+ "/" +:+ filename).
Proof.
  assert (HVM : contains "ViewModel" filename = true → contains "Model" filename = true).
  { intros H. by apply (contains_part "View" "Model"). }
  assert (HTV : contains "TabView" filename = true → contains "View" filename = true).
  { intros H. by apply (contains_part "Tab" "View"). }
  assert (HAD : contains "AppDelegate" filename = true → contains "App" filename = true).
  { intros H. by apply (contains_part "App" "Delegate"). }
  assert (Hrules : get_output_subdir filename
    = (if contains "Model" filename then "ViewModels"
       else if contains "View" filename || contains "Screen" filename then "Views"
       else if contains "App" filename then "App"
       else if contains "Auth" filename then "Authentication"
       else if contains "Manager" filename || contains "Service" filename
               || contains "State" filename then "Services"
       else "Utils")).
  { unfold get_output_subdir. simpl.
    destruct (contains "ViewModel" filename) eqn:EVM;
      [ by rewrite HVM | ].
    destruct (contains "Model" filename); simpl; [ done | ].
    destruct (contains "TabView" filename) eqn:ETV;
      [ rewrite HTV by done; simpl; done | ].
    destruct (contains "View" filename); simpl; [ done | ].
    rewrite orb_false_r.
    destruct (contains "Screen" filename); simpl; [ done | ].
    destruct (contains "AppDelegate" filename) eqn:EAD;
      [ rewrite HAD by done; simpl; done | ].
    rewrite orb_false_r, andb_true_r. done. }
  split; [ exact Hrules | ]. split.
  - rewrite Hrules. repeat case_match; done.
  - unfold get_output_path.
    destruct (starts_with "/" filename) eqn:Hsw.
    + unfold Inventory.path_join at 1. by rewrite Hsw.
    + apply output_path_under; [ exact Hsw | ].
      rewrite Hrules. repeat case_match; set_solver.
Qed.

Lemma newest_first (w : backups) (matches : list string) :
  matches ≠ [] →
  ∃ p, head (sorted (fun a b => getmtime w a <? getmtime w b) true matches) = Some p
       ∧ p ∈ matches
       ∧ ∀ q, q ∈ matches → getmtime w q ≤ getmtime w p.
Proof.
  intros Hne.
  pose proof (sorted_Permutation (fun a b => getmtime w a <? getmtime w b) true matches)
    as Hperm.
  assert (Hsorted : Sorted (flip (fun a b => getmtime w a ≤ getmtime w b))
                      (sorted (fun a b => getmtime w a <? getmtime w b) true matches)).
  { apply sorted_descending.
    - intros x y Hlt. apply Z.ltb_lt in Hlt. lia.
    - intros x y Hge. apply Z.ltb_ge in Hge. lia. }
  destruct (sorted _ true matches) as [ | p rest ].
  - apply Permutation_nil_l in Hperm. done.
  - exists p. split; [ done | ]. split; [ rewrite <- Hperm; by left | ].
    apply Sorted_StronglySorted in Hsorted; [ | intros a b c; unfold flip; lia ].
    apply StronglySorted_inv in Hsorted as [_ Hall].
    intros q Hq. rewrite <- Hperm in Hq. apply elem_of_cons in Hq as [ -> | Hq ]; [ lia | ].
    rewrite Forall_forall in Hall. by apply Hall.
Qed.

(** X17: [find_latest_backup] finds nothing exactly when no backup directory has a
    match; otherwise it returns a match of the first directory that has one,
    and none of that directory's matches is newer. Later directories are not
    looked at, whatever they hold. *)
Theorem find_latest_backup_spec (w : backups) (backup_dirs : list string)
    (filename : string) :
  match find_latest_backup w backup_dirs filename with
  | None => ∀ d, d ∈ backup_dirs → glob_backups w d filename = []
  | Some p =>
      ∃ before d after,
        backup_dirs = before ++ d :: after
        ∧ (∀ d', d' ∈ before → glob_backups w d' filename = [])
        ∧ p ∈ glob_backups w d filename
        ∧ ∀ q, q ∈ glob_backups w d filename → getmtime w q ≤ getmtime w p
  end.
Proof.
  induction backup_dirs as [ | d dirs IH ]; cbn [find_latest_backup].
  - intros d Hd. by apply elem_of_nil in Hd.
  - destruct (glob_backups w d filename) as [ | m ms ] eqn:E; cbv beta iota.
    + destruct (find_latest_backup w dirs filename) as [p|].
      * destruct IH as (before & d0 & after & -> & Hbefore & Hp & Hmax).
        exists (d :: before), d0, after. split; [ done | ]. split; [ | done ].
        intros d' [ -> | Hd' ]%elem_of_cons; [ done | by apply Hbefore ].
      * intros d' [ -> | Hd' ]%elem_of_cons; [ done | by apply IH ].
    + destruct (newest_first w (m :: ms)) as (p & Hhead & Hp & Hmax); [ done | ].
      rewrite Hhead. exists [], d, dirs. rewrite E. split; [ done | ].
      split; [ | done ]. intros d' Hd'. by apply elem_of_nil in Hd'.
Qed.

Lemma recover_critical_files_app list_sort json_loads w read_file out backup_dirs
    (before after : list string) :
  Forall (fun filename =>
            ∀ path text,
              recover_file list_sort json_loads w read_file backup_dirs filename
              = Some (path, text) →
              write_file out path text = Written text) before →
  recover_critical_files list_sort json_loads w read_file out backup_dirs (before ++ after)
  = foldr and_before
      (recover_critical_files list_sort json_loads w read_file out backup_dirs after)
      (omap (recover_file list_sort json_loads w read_file backup_dirs) before).
Proof.
  induction 1 as [ | f before Hf Hall IH ]; [ done | ].
  cbn [app recover_critical_files omap list_omap].
  destruct (recover_file list_sort json_loads w read_file backup_dirs f)
    as [[path text]|] eqn:E; [ | done ].
  rewrite (Hf path text eq_refl). simpl. by rewrite IH.
Qed.

(** X18: The loop over the critical files. While the writes succeed, a file is
    written for a name exactly when the backup [find_latest_backup] picks for
    it yields a text that is not empty: that text, at the output path of the
    name; so no file is written empty, and at most one for each name. The
    first write that fails stops the script: the files for the names before
    are written, the file being written is left untouched or empty, and
    nothing is written for the names after it. *)
Theorem recover_critical_files_written (list_sort : list json → option (list nat))
    (json_loads : string → parse_result) (w : backups)
    (read_file : string → option string) (out : output) (backup_dirs : list string)
    (critical_files : list string) :
  ((∀ filename path text,
      filename ∈ critical_files →
      recover_file list_sort json_loads w read_file backup_dirs filename = Some (path, text) →
      write_file out path text = Written text) →
   recover_critical_files list_sort json_loads w read_file out backup_dirs critical_files
   = Completed (omap (recover_file list_sort json_loads w read_file backup_dirs)
                  critical_files))
  ∧ (∀ before filename after path text,
       critical_files = before ++ filename :: after →
       (∀ filename' path' text',
          filename' ∈ before →
          recover_file list_sort json_loads w read_file backup_dirs filename'
          = Some (path', text') →
          write_file out path' text' = Written text') →
       recover_file list_sort json_loads w read_file backup_dirs filename = Some (path, text) →
       write_file out path text ≠ Written text →
       recover_critical_files list_sort json_loads w read_file out backup_dirs critical_files
       = Aborted (omap (recover_file list_sort json_loads w read_file backup_dirs) before)
           path (write_file out path text)
       ∧ write_file out path text
         = (if can_open out path then Truncated else Untouched))
  ∧ (∀ path text,
       (path, text) ∈ omap (recover_file list_sort json_loads w read_file backup_dirs)
                        critical_files
       ↔ ∃ filename backup,
           filename ∈ critical_files
           ∧ find_latest_backup w backup_dirs filename = Some backup
           ∧ extract_swift_from_json list_sort json_loads (read_file backup) = Some text
           ∧ text ≠ EmptyString
           ∧ path = get_output_path filename)
  ∧ (length (written_files
               (recover_critical_files list_sort json_loads w read_file out backup_dirs
                  critical_files))
     ≤ length critical_files)%nat.
Proof.
  split; [ | split; [ | split ] ].
  - intros Hok.
    pose proof (recover_critical_files_app list_sort json_loads w read_file out backup_dirs
                  critical_files []) as E.
    rewrite app_nil_r in E. rewrite E.
    + simpl. generalize (omap (recover_file list_sort json_loads w read_file backup_dirs)
                           critical_files).
      intros l. induction l as [ | e l IH ]; simpl; [ done | by rewrite IH ].
    + apply Forall_forall. intros f Hf path text. by apply Hok.
  - intros before filename after path text -> Hbefore Hrec Hfail.
    assert (Hhere : recover_critical_files list_sort json_loads w read_file out backup_dirs
                      (filename :: after)
                    = Aborted [] path (write_file out path text)
                    ∧ write_file out path text
                      = (if can_open out path then Truncated else Untouched)).
    { cbn [recover_critical_files]. rewrite Hrec. revert Hfail. unfold write_file.
      destruct (can_open out path); [ | done ].
      destruct (can_write out path text); done. }
    destruct Hhere as [Hhere Heff]. split; [ | exact Heff ].
    rewrite recover_critical_files_app, Hhere.
    + generalize (omap (recover_file list_sort json_loads w read_file backup_dirs) before).
      intros l. induction l as [ | e l IH ]; simpl; [ done | ].
      by rewrite IH.
    + apply Forall_forall. intros f Hf path' text'. by apply Hbefore.
  - intros path text. rewrite list_elem_of_omap. unfold recover_file. split.
    + intros (filename & Hin & Hrec).
      destruct (find_latest_backup w backup_dirs filename) as [backup|] eqn:Hfind;
        [ | done ].
      simpl in Hrec.
      destruct (extract_swift_from_json list_sort json_loads (read_file backup))
        as [code|] eqn:E; [ | done ].
      simpl in Hrec. case_decide; [ done | ]. injection Hrec as <- <-.
      by exists filename, backup.
    + intros (filename & backup & Hin & Hfind & Hext & Hne & ->).
      exists filename. split; [ done | ]. rewrite Hfind. simpl. rewrite Hext. simpl.
      by rewrite decide_False.
  - induction critical_files as [ | f fs IH ]; [ done | ].
    cbn [recover_critical_files].
    destruct (recover_file list_sort json_loads w read_file backup_dirs f)
      as [[path text]|]; [ | simpl; lia ].
    destruct (write_file out path text); simpl; try lia.
    destruct (recover_critical_files list_sort json_loads w read_file out backup_dirs fs);
      simpl in *; lia.
Qed.

End Recovery.

(** ** Reading a file in chunks ([compute_sha256] of [compare_code_files.py]) *)

Module Hashing.

(** [f.read(n)] on the bytes not yet read: the bytes returned and the bytes
    left. *)
Fixpoint string_take (n : nat) (s : string) : string :=
  match n, s with
  | S n', String c s' => String c (string_take n' s')
  | _, _ => EmptyString
  end.

Fixpoint string_drop (n : nat) (s : string) : string :=
  match n, s with
  | S n', String _ s' => string_drop n' s'
  | _, _ => s
  end.

(** [iter(lambda: f.read(n), b"")]: the chunks read until a read returns
    nothing. The loop is bounded by [fuel] reads. *)
Fixpoint read_chunks (fuel n : nat) (rest : string) : list string :=
  match fuel with
  | O => []
  | S fuel' =>
      let chunk := string_take n rest in
      if decide (chunk = EmptyString) then []
      else chunk :: read_chunks fuel' n (string_drop n rest)
  end.

Definition chunk_size : nat := 8192.

(** [compute_sha256] with its loop: the hasher is fed the chunks one after
    the other, and [hexdigest] is the digest of all the bytes it was fed. A
    file of [k] bytes takes at most [k] reads that return something. *)
Definition compute_sha256_streamed (sha256 : string -> string) (w : Inventory.world)
    (file_path : string) : option string :=
  data ← Inventory.read_bytes w file_path;
  let fed := foldl (fun hasher chunk => hasher +:+ chunk) EmptyString
                   (read_chunks (S (String.length data)) chunk_size data) in
  Some (sha256 fed).

Lemma string_take_drop n s : string_take n s +:+ string_drop n s = s.
Proof.
  revert s. induction n as [ | n IH ]; intros [ | c s ]; simpl; try done.
  rewrite Recovery.append_cons. by rewrite IH.
Qed.

Lemma string_drop_length n s : (String.length (string_drop n s) ≤ String.length s)%nat.
Proof.
  revert s. induction n as [ | n IH ]; intros [ | c s ]; simpl; try lia.
  specialize (IH s). lia.
Qed.

Lemma string_take_length n s : (String.length (string_take n s) ≤ n)%nat.
Proof.
  revert s. induction n as [ | n IH ]; intros [ | c s ]; simpl; try lia.
  specialize (IH s). lia.
Qed.

Lemma read_chunks_feed n fuel : ∀ rest hasher,
  (0 < n)%nat → (String.length rest < fuel)%nat →
  foldl (fun hasher chunk => hasher +:+ chunk) hasher (read_chunks fuel n rest)
  = hasher +:+ rest.
Proof.
  induction fuel as [ | fuel IH ]; intros rest hasher Hn Hfuel; [ lia | ].
  simpl. destruct n as [ | n ]; [ lia | ].
  destruct rest as [ | c rest ]; simpl.
  - by rewrite Recovery.append_empty_r.
  - rewrite IH.
    + rewrite Recovery.append_assoc. f_equal. rewrite Recovery.append_cons.
      f_equal. apply (string_take_drop n rest).
    + lia.
    + simpl in Hfuel. pose proof (string_drop_length n rest). lia.
Qed.

Lemma read_chunks_sizes n fuel : ∀ rest,
  Forall (fun chunk => (0 < String.length chunk ≤ n)%nat) (read_chunks fuel n rest).
Proof.
  induction fuel as [ | fuel IH ]; intros rest; simpl; [ constructor | ].
  case_decide as Hc; constructor; [ | apply IH ].
  split; [ | apply string_take_length ].
  destruct (string_take n rest); [ done | simpl; lia ].
Qed.

(** X11: Reading a file in chunks of 8192 bytes digests exactly the bytes of the
    file: the streamed digest is the digest of the contents, whatever their
    length, and every chunk fed has between 1 and 8192 bytes. *)
Theorem compute_sha256_streamed_correct (sha256 : string → string)
    (w : Inventory.world) (file_path : string) :
  compute_sha256_streamed sha256 w file_path = Inventory.compute_sha256 sha256 w file_path
  ∧ ∀ data, Inventory.read_bytes w file_path = Some data →
      Forall (fun chunk => (0 < String.length chunk ≤ 8192)%nat)
             (read_chunks (S (String.length data)) chunk_size data).
Proof.
  split.
  - unfold compute_sha256_streamed, Inventory.compute_sha256.
    destruct (Inventory.read_bytes w file_path) as [data|]; [ | done ].
    change (Some (sha256 (foldl (fun hasher chunk => hasher +:+ chunk) EmptyString
                           (read_chunks (S (String.length data)) chunk_size data)))
            = Some (sha256 data)).
    rewrite read_chunks_feed; [ done | | lia ].
    unfold chunk_size. apply Nat.ltb_lt. vm_compute. reflexivity.
  - intros data _. apply read_chunks_sizes.
Qed.

End Hashing.
